(** * YOLO box post-processing, triplet loss, pooling and initialisation:
      a shallow embedding

    The notebooks [exam_2_part_1_chetan_shah.ipynb] (box filtering, IoU,
    non-max suppression, evaluation) and [exam_2_part_2_chetan_shah.ipynb]
    (He initialisation, convolution step, pooling, triplet loss) are
    embedded function by function.  A Python or TensorFlow exception is
    [None]; the Keras session that [yolo_non_max_suppression] writes to and
    NumPy's random generator are passed explicitly.

    Numbers come in two models.  The functions are first embedded over
    exact rationals ([Q]): this is what Python computes on ints, and it
    carries the properties that use the arithmetic through its order and
    through laws that rounding keeps.  Where a property depends on
    rounding, overflow or underflow, the function is embedded a second
    time on IEEE 754 numbers, as the interpreter runs it on floats:
    [F64] holds [iou] on binary64 (primitive floats), [np64] holds
    [conv_single_step] on NumPy's float64, and [Floating] holds
    [triplet_loss] on the binary format of the tensors (binary32 by
    default in TensorFlow, binary64 for float64 tensors), after the
    reference semantics of the Standard Library. *)

From Stdlib Require Import QArith Qminmax Qpower Lqa ZArith List Bool Arith Lia.
From Stdlib Require Import Sorted.
From Stdlib Require Import Floats.
From Stdlib Require String DecimalString DecimalNat.
Import ListNotations.

Set Warnings "-inexact-float".
Local Open Scope Q_scope.

(** * Part I: the program *)

(** ** Exceptions *)

Definition bind {A B : Type} (o : option A) (k : A -> option B) : option B :=
  match o with
  | Some a => k a
  | None => None
  end.

Notation "x <- c ;; k" := (bind c (fun x => k))
  (at level 61, c at next level, right associativity).
Notation "' pat <- c ;; k" := (bind c (fun x => match x with pat => k end))
  (at level 61, pat pattern, c at next level, right associativity).

(** ** Python built-ins *)

Module Py.

(** [max(a, b)]: the first argument is kept unless the second is strictly
    greater. *)
Definition max (a b : Q) : Q := if Qlt_le_dec a b then b else a.

(** [min(a, b)]: the first argument is kept unless the second is strictly
    smaller. *)
Definition min (a b : Q) : Q := if Qlt_le_dec b a then b else a.

(** [a / b] on numbers: [ZeroDivisionError] when the divisor is zero. *)
Definition div (a b : Q) : option Q :=
  if Qeq_bool b 0 then None else Some (a / b).

(** [a / b] on two Python ints, here for [0 <= a, b < 2^53]: the binary64
    number nearest the quotient. *)
Definition int_true_div (a b : Z) : float :=
  PrimFloat.div (PrimFloat.of_uint63 (Uint63.of_Z a))
                (PrimFloat.of_uint63 (Uint63.of_Z b)).

End Py.

(** ** Boxes in corner form *)

(** A box is the 4-tuple [(x1, y1, x2, y2)]; [box[0]] .. [box[3]] are the
    projections. *)
Record Box : Type := mkBox { x1 : Q; y1 : Q; x2 : Q; y2 : Q }.

Definition non_degenerate (b : Box) : Prop := x1 b < x2 b /\ y1 b < y2 b.

(** ** [iou] *)

Definition xi1 (box1 box2 : Box) : Q := Py.max (x1 box1) (x1 box2).
Definition yi1 (box1 box2 : Box) : Q := Py.max (y1 box1) (y1 box2).
Definition xi2 (box1 box2 : Box) : Q := Py.min (x2 box1) (x2 box2).
Definition yi2 (box1 box2 : Box) : Q := Py.min (y2 box1) (y2 box2).

Definition inter_area (box1 box2 : Box) : Q :=
  (yi2 box1 box2 - yi1 box1 box2) * (xi2 box1 box2 - xi1 box1 box2).

Definition box_area (b : Box) : Q := (x2 b - x1 b) * (y2 b - y1 b).

Definition union_area (box1 box2 : Box) : Q :=
  box_area box1 + box_area box2 - inter_area box1 box2.

Definition iou (box1 box2 : Box) : option Q :=
  Py.div (inter_area box1 box2) (union_area box1 box2).

(** The two boxes share no point: they are separated along x or along y. *)
Definition disjoint (box1 box2 : Box) : Prop :=
  x2 box1 < x1 box2 \/ x2 box2 < x1 box1 \/
  y2 box1 < y1 box2 \/ y2 box2 < y1 box1.

(** The intersection rectangle is non-empty. *)
Definition overlapping (box1 box2 : Box) : Prop :=
  xi1 box1 box2 <= xi2 box1 box2 /\ yi1 box1 box2 <= yi2 box1 box2.

(** A box whose coordinates are Python ints: on them [max], [min], [-],
    [*] and [+] are exact, and [/] returns the binary64 number nearest the
    exact quotient that [iou] gives. *)
Definition int_box (a b c d : Z) : Box :=
  mkBox (inject_Z a) (inject_Z b) (inject_Z c) (inject_Z d).

(** ** [iou] on floats *)

(** The same function when the coordinates are Python floats: every
    operation is the binary64 one, rounded to nearest. *)
Module F64.

Local Open Scope float_scope.

(** [max(a, b)]: the first argument is kept unless the second is strictly
    greater; a comparison with nan is false. *)
Definition max (a b : float) : float := if a <? b then b else a.

(** [min(a, b)]: the first argument is kept unless the second is strictly
    smaller. *)
Definition min (a b : float) : float := if b <? a then b else a.

(** [a / b] on floats: [ZeroDivisionError] when the divisor is [0.0] or
    [-0.0]. *)
Definition div (a b : float) : option float :=
  if b =? 0 then None else Some (a / b).

Record Box : Type :=
  mkBox { x1 : float; y1 : float; x2 : float; y2 : float }.

Definition non_degenerate (b : Box) : Prop :=
  (x1 b <? x2 b) = true /\ (y1 b <? y2 b) = true.

Definition xi1 (box1 box2 : Box) : float := max (x1 box1) (x1 box2).
Definition yi1 (box1 box2 : Box) : float := max (y1 box1) (y1 box2).
Definition xi2 (box1 box2 : Box) : float := min (x2 box1) (x2 box2).
Definition yi2 (box1 box2 : Box) : float := min (y2 box1) (y2 box2).

Definition inter_area (box1 box2 : Box) : float :=
  (yi2 box1 box2 - yi1 box1 box2) * (xi2 box1 box2 - xi1 box1 box2).

Definition box_area (b : Box) : float := (x2 b - x1 b) * (y2 b - y1 b).

Definition union_area (box1 box2 : Box) : float :=
  box_area box1 + box_area box2 - inter_area box1 box2.

Definition iou (box1 box2 : Box) : option float :=
  div (inter_area box1 box2) (union_area box1 box2).

(** The intersection rectangle is non-empty. *)
Definition overlapping (box1 box2 : Box) : Prop :=
  (xi1 box1 box2 <=? xi2 box1 box2) = true /\
  (yi1 box1 box2 <=? yi2 box1 box2) = true.

End F64.

(** ** Tensors *)

(** Element-wise combination of two sequences; a length mismatch is a shape
    error. *)
Fixpoint zip_with_exact {A B C : Type} (f : A -> B -> option C)
    (l1 : list A) (l2 : list B) : option (list C) :=
  match l1, l2 with
  | [], [] => Some []
  | a :: l1', b :: l2' =>
      c <- f a b ;; cs <- zip_with_exact f l1' l2' ;; Some (c :: cs)
  | _, _ => None
  end.

Fixpoint map_exact {A B : Type} (f : A -> option B) (l : list A)
    : option (list B) :=
  match l with
  | [] => Some []
  | a :: l' => b <- f a ;; bs <- map_exact f l' ;; Some (b :: bs)
  end.

(** The YOLO head is a grid of cells by cells by anchors (19 x 19 x 5 in
    the notebook); the last axis of each tensor is the payload [A]. *)
Definition Grid (A : Type) : Type := list (list (list A)).

(** Row-major enumeration of the boxes of a grid. *)
Definition flatten {A : Type} (g : Grid A) : list A := concat (concat g).

Definition shape {A : Type} (g : Grid A) : list (list nat) :=
  map (map (@length A)) g.

Definition grid_zip_with {A B C : Type} (f : A -> B -> option C)
    (g1 : Grid A) (g2 : Grid B) : option (Grid C) :=
  zip_with_exact (zip_with_exact (zip_with_exact f)) g1 g2.

Definition grid_map_exact {A B : Type} (f : A -> option B) (g : Grid A)
    : option (Grid B) :=
  map_exact (map_exact (map_exact f)) g.

Definition grid_map {A B : Type} (f : A -> B) (g : Grid A) : Grid B :=
  map (map (map f)) g.

(** Reductions over the last axis.  Ties go to the first maximal entry; an
    empty axis is an error. *)
Fixpoint max_from (best : Q) (l : list Q) : Q :=
  match l with
  | [] => best
  | x :: l' => max_from (if Qlt_le_dec best x then x else best) l'
  end.

Definition max_last (l : list Q) : option Q :=
  match l with
  | [] => None
  | x :: l' => Some (max_from x l')
  end.

Fixpoint argmax_from (best : Q) (best_i i : nat) (l : list Q) : nat :=
  match l with
  | [] => best_i
  | x :: l' =>
      if Qlt_le_dec best x then argmax_from x i (S i) l'
      else argmax_from best best_i (S i) l'
  end.

Definition argmax_last (l : list Q) : option nat :=
  match l with
  | [] => None
  | x :: l' => Some (argmax_from x 0%nat 1%nat l')
  end.

Fixpoint sum_list (l : list Q) : Q :=
  match l with
  | [] => 0
  | x :: l' => x + sum_list l'
  end.

(** Keras backend operations, on grids. *)
Module K.

(** [box_confidence * box_class_probs]: the confidence, of last axis 1,
    is broadcast over the class axis. *)
Definition mul_broadcast (box_confidence : Grid Q)
    (box_class_probs : Grid (list Q)) : option (Grid (list Q)) :=
  grid_zip_with (fun c ps => Some (map (Qmult c) ps))
                box_confidence box_class_probs.

(** [K.argmax(x, axis=-1)] *)
Definition argmax (x : Grid (list Q)) : option (Grid nat) :=
  grid_map_exact argmax_last x.

(** [K.max(x, axis=-1, keepdims=False)] *)
Definition max (x : Grid (list Q)) : option (Grid Q) :=
  grid_map_exact max_last x.

(** [x >= threshold] *)
Definition ge (x : Grid Q) (threshold : Q) : Grid bool :=
  grid_map (fun s => Qle_bool threshold s) x.

(** [K.gather(reference, indices)]: an index out of range is an error. *)
Definition gather {A : Type} (reference : list A) (indices : list nat)
    : option (list A) :=
  map_exact (nth_error reference) indices.

End K.

(** TensorFlow operations. *)
Module tf.

(** [tf.boolean_mask(tensor, mask)], the mask covering the three grid axes:
    the entries under a [true] are kept, in row-major order; the shapes
    must agree. *)
Definition boolean_mask {A : Type} (tensor : Grid A) (mask : Grid bool)
    : option (list A) :=
  z <- grid_zip_with (fun x b => Some (x, b)) tensor mask ;;
  Some (map fst (filter snd (flatten z))).

(** [tf.subtract(x, y)] on two matrices of one shape. *)
Definition subtract (x y : list (list Q)) : option (list (list Q)) :=
  zip_with_exact (zip_with_exact (fun a b => Some (a - b))) x y.

(** [tf.subtract(x, y)] on two vectors of one length. *)
Definition subtract_vec (x y : list Q) : option (list Q) :=
  zip_with_exact (fun a b => Some (a - b)) x y.

(** [tf.square(x)] *)
Definition square (x : list (list Q)) : list (list Q) :=
  map (map (fun a => a * a)) x.

(** [tf.reduce_sum(x, axis=-1)] *)
Definition reduce_sum_last (x : list (list Q)) : list Q := map sum_list x.

(** [tf.reduce_sum(x)] *)
Definition reduce_sum (x : list Q) : Q := sum_list x.

(** [tf.add(x, alpha)], the scalar broadcast over the vector. *)
Definition add_scalar (x : list Q) (alpha : Q) : list Q :=
  map (fun a => a + alpha) x.

(** [tf.maximum(x, c)], the scalar broadcast over the vector. *)
Definition maximum_scalar (x : list Q) (c : Q) : list Q :=
  map (fun a => if Qlt_le_dec a c then c else a) x.

End tf.

(** ** [yolo_filter_boxes] *)

Definition yolo_filter_boxes (box_confidence : Grid Q) (boxes : Grid Box)
    (box_class_probs : Grid (list Q)) (threshold : Q)
    : option (list Q * list Box * list nat) :=
  (* Step 1: compute box scores *)
  box_scores <- K.mul_broadcast box_confidence box_class_probs ;;
  (* Step 2: the class of the best score, and that score *)
  box_classes <- K.argmax box_scores ;;
  box_class_scores <- K.max box_scores ;;
  (* Step 3: the filtering mask *)
  let filtering_mask := K.ge box_class_scores threshold in
  (* Step 4: apply the mask to scores, boxes and classes *)
  scores <- tf.boolean_mask box_class_scores filtering_mask ;;
  boxes <- tf.boolean_mask boxes filtering_mask ;;
  classes <- tf.boolean_mask box_classes filtering_mask ;;
  Some (scores, boxes, classes).

(** ** Non-max suppression *)

(** The Keras session: the values of the variables initialised in it, in
    order of creation. *)
Definition Session : Type := list Z.

(** The int32 value that [K.variable(value, dtype='int32')] makes of a
    Python int: NumPy converts it through a C long (64 bits), which raises
    [OverflowError] outside that range, and keeps the low 32 bits, so that
    [2^31] becomes [-2147483648]. *)
Definition int32 (value : Z) : option Z :=
  if ((- 2 ^ 63 <=? value) && (value <? 2 ^ 63))%Z
  then Some ((value + 2 ^ 31) mod 2 ^ 32 - 2 ^ 31)%Z
  else None.

(** [K.get_session().run(tf.variables_initializer([v]))] for a variable
    [v] of the given int32 value: the session holds one more initialised
    variable. *)
Definition variable_initialized (value : Z) (sess : Session) : Session :=
  sess ++ [value].

(** A call in a session: what it returns, or the exception, and the session
    it leaves behind. *)
Definition Eff (A : Type) : Type := Session -> option A * Session.

Definition Detections : Type := (list Q * list Box * list nat)%type.

Section Pipeline.

(** The overlap measure of the TensorFlow operation: its own IoU, not the
    notebook's [iou]. *)
Variable overlap : Box -> Box -> Q.

(** Modelled from the spec: the pieces of [tf.image.non_max_suppression],
    a TensorFlow operation that is not part of the notebooks.  A candidate
    is an index with its score and box. *)
Definition Candidate : Type := (nat * Q * Box)%type.

Definition cand_index (c : Candidate) : nat := fst (fst c).
Definition cand_score (c : Candidate) : Q := snd (fst c).
Definition cand_box (c : Candidate) : Box := snd c.

(** Modelled from the spec: "by descending score".  Insertion keeps the
    candidates of equal score in their original order. *)
Fixpoint insert_desc (c : Candidate) (l : list Candidate) : list Candidate :=
  match l with
  | [] => [c]
  | d :: l' =>
      if Qlt_le_dec (cand_score c) (cand_score d)
      then d :: insert_desc c l'
      else c :: l
  end.

Definition sort_desc (l : list Candidate) : list Candidate :=
  fold_right insert_desc [] l.

(** Modelled from the spec: "IoU with an already-kept box exceeds the
    threshold". *)
Definition suppressed (iou_threshold : Q) (selected : list Candidate)
    (c : Candidate) : bool :=
  existsb (fun s => negb (Qle_bool (overlap (cand_box c) (cand_box s))
                                   iou_threshold))
          selected.

(** Modelled from the spec: "selects indices greedily ..., discarding any
    later box ..., stopping at max count". *)
Fixpoint select (max_output_size : nat) (iou_threshold : Q)
    (candidates selected : list Candidate) : list Candidate :=
  match candidates with
  | [] => selected
  | c :: rest =>
      if (max_output_size <=? length selected)%nat then selected
      else if suppressed iou_threshold selected c
      then select max_output_size iou_threshold rest selected
      else select max_output_size iou_threshold rest (selected ++ [c])
  end.

(** Modelled from the spec: [tf.image.non_max_suppression], a TensorFlow
    operation that is not part of the notebooks.  Indices are selected
    greedily by descending score; a later box whose IoU with an already
    kept box exceeds the threshold is discarded; selection stops at the
    maximum count.  Boxes and scores of different lengths are an error. *)
Definition non_max_suppression (boxes : list Box) (scores : list Q)
    (max_output_size : nat) (iou_threshold : Q) : option (list nat) :=
  if (length boxes =? length scores)%nat then
    let candidates :=
      combine (combine (seq 0 (length boxes)) scores) boxes in
    Some (map cand_index
            (select max_output_size iou_threshold (sort_desc candidates) []))
  else None.

(** ** [yolo_non_max_suppression] *)

(** [max_boxes] is a count.  The variable is made from it first; when
    that raises, nothing has reached the session. *)
Definition yolo_non_max_suppression (scores : list Q) (boxes : list Box)
    (classes : list nat) (max_boxes : nat) (iou_threshold : Q)
    : Eff Detections :=
  fun sess =>
    (* max_boxes_tensor = K.variable(max_boxes, dtype='int32') *)
    match int32 (Z.of_nat max_boxes) with
    | None => (None, sess)
    | Some max_boxes_tensor =>
        (* max_boxes_tensor is initialised in the session *)
        let sess := variable_initialized max_boxes_tensor sess in
        let result :=
          nms_indices <-
            non_max_suppression boxes scores max_boxes iou_threshold ;;
          scores <- K.gather scores nms_indices ;;
          boxes <- K.gather boxes nms_indices ;;
          classes <- K.gather classes nms_indices ;;
          Some (scores, boxes, classes) in
        (result, sess)
    end.

(** ** [yolo_eval] *)

(** The two helpers imported from [yad2k] and [yolo_utils]; they are used
    as black boxes, and may raise. *)
Variable yolo_boxes_to_corners :
  Grid (Q * Q) -> Grid (Q * Q) -> option (Grid Box).
Variable scale_boxes : list Box -> Q * Q -> option (list Box).

Definition YoloOutputs : Type :=
  (Grid Q * Grid (Q * Q) * Grid (Q * Q) * Grid (list Q))%type.

Definition yolo_eval (yolo_outputs : YoloOutputs) (image_shape : Q * Q)
    (max_boxes : nat) (score_threshold iou_threshold : Q)
    : Eff Detections :=
  fun sess =>
    let '(box_confidence, box_xy, box_wh, box_class_probs) := yolo_outputs in
    match yolo_boxes_to_corners box_xy box_wh with
    | None => (None, sess)
    | Some boxes =>
        match yolo_filter_boxes box_confidence boxes box_class_probs
                                score_threshold with
        | None => (None, sess)
        | Some (scores, boxes, classes) =>
            match scale_boxes boxes image_shape with
            | None => (None, sess)
            | Some boxes =>
                yolo_non_max_suppression scores boxes classes
                                         max_boxes iou_threshold sess
            end
        end
    end.

(** *** The composition the specification describes *)









End Pipeline.

(** ** [triplet_loss] *)

Definition Encodings : Type := list (list Q).

Definition triplet_loss {T : Type} (y_true : T)
    (y_pred : Encodings * Encodings * Encodings) (alpha : Q) : option Q :=
  let '(anchor, positive, negative) := y_pred in
  (* Step 1: distance between the anchor and the positive *)
  d_pos <- tf.subtract anchor positive ;;
  let pos_dist := tf.reduce_sum_last (tf.square d_pos) in
  (* Step 2: distance between the anchor and the negative *)
  d_neg <- tf.subtract anchor negative ;;
  let neg_dist := tf.reduce_sum_last (tf.square d_neg) in
  (* Step 3: subtract the two distances and add alpha *)
  diff <- tf.subtract_vec pos_dist neg_dist ;;
  let basic_loss := tf.add_scalar diff alpha in
  (* Step 4: maximum with 0, summed over the training examples *)
  let loss := tf.reduce_sum (tf.maximum_scalar basic_loss 0) in
  Some loss.

(** ** [triplet_loss] on floats *)

(** The same function on tensors of floating-point numbers.  The binary
    format is a parameter: [prec] bits of precision and exponents below
    [emax], that is 24 and 128 for float32 tensors, 53 and 1024 for
    float64 ones.  The operations are those of IEEE 754, rounded to
    nearest. *)
Module Floating.

Section Format.

Variables prec emax : Z.

Definition Encodings : Type := list (list spec_float).

Definition zero : spec_float := S754_zero false.

(** The number of the format nearest an integer. *)
Definition of_Z (n : Z) : spec_float := binary_normalize prec emax n 0 false.

(** The sum of a sequence: the items added to [0.0] one after the other.
    TensorFlow's kernels add in an order of their own, and their result
    can differ from this one in the last bits: what is proved of [sum]
    uses of the order only what every order has. *)
Definition sum (l : list spec_float) : spec_float :=
  fold_left (SFadd prec emax) l zero.

(** [tf.subtract(x, y)] on two matrices of one shape. *)
Definition subtract (x y : Encodings) : option Encodings :=
  zip_with_exact (zip_with_exact (fun a b => Some (SFsub prec emax a b))) x y.

(** [tf.subtract(x, y)] on two vectors of one length. *)
Definition subtract_vec (x y : list spec_float) : option (list spec_float) :=
  zip_with_exact (fun a b => Some (SFsub prec emax a b)) x y.

(** [tf.square(x)] *)
Definition square (x : Encodings) : Encodings :=
  map (map (fun a => SFmul prec emax a a)) x.

(** [tf.reduce_sum(x, axis=-1)] *)
Definition reduce_sum_last (x : Encodings) : list spec_float := map sum x.

(** [tf.reduce_sum(x)] *)
Definition reduce_sum (x : list spec_float) : spec_float := sum x.

(** [tf.add(x, alpha)], the scalar broadcast over the vector. *)
Definition add_scalar (x : list spec_float) (alpha : spec_float)
    : list spec_float :=
  map (fun a => SFadd prec emax a alpha) x.

(** [tf.maximum(x, c)], the scalar broadcast over the vector: [x] is kept
    unless it is smaller than [c], so a nan in [x] stays. *)
Definition maximum_scalar (x : list spec_float) (c : spec_float)
    : list spec_float :=
  map (fun a => if SFltb a c then c else a) x.

Definition triplet_loss {T : Type} (y_true : T)
    (y_pred : Encodings * Encodings * Encodings) (alpha : spec_float)
    : option spec_float :=
  let '(anchor, positive, negative) := y_pred in
  (* Step 1: distance between the anchor and the positive *)
  d_pos <- subtract anchor positive ;;
  let pos_dist := reduce_sum_last (square d_pos) in
  (* Step 2: distance between the anchor and the negative *)
  d_neg <- subtract anchor negative ;;
  let neg_dist := reduce_sum_last (square d_neg) in
  (* Step 3: subtract the two distances and add alpha *)
  diff <- subtract_vec pos_dist neg_dist ;;
  let basic_loss := add_scalar diff alpha in
  (* Step 4: maximum with 0.0, summed over the training examples *)
  let loss := reduce_sum (maximum_scalar basic_loss zero) in
  Some loss.

End Format.

(** Two matrices of encodings have one shape. *)
Definition same_shape (x y : Encodings) : Prop :=
  Forall2 (fun r1 r2 => length r1 = length r2) x y.

(** Not a number, or a number that compares [>= 0]. *)
Definition nan_or_nonneg (x : spec_float) : Prop :=
  x = S754_nan \/ SFleb zero x = true.

End Floating.

(** ** Values and rounding *)

(** The vocabulary in which the binary operations are related to the
    rational numbers they round. *)

(** Powers of two, of any integer exponent. *)
Definition pow2 (e : Z) : Q := Qpower 2 e.






Section RoundingToFormat.

Variables prec emax : Z.





End RoundingToFormat.


(** ** Vocabulary of the specification *)

(** Per-class scores of one box: confidence times class probability. *)
Definition class_scores (c : Q) (ps : list Q) : list Q := map (Qmult c) ps.

Definition is_maximum (l : list Q) (m : Q) : Prop :=
  In m l /\ forall s, In s l -> s <= m.

(** Box number [i] of the row-major enumeration has maximum per-class
    score [m]. *)
Definition max_class_score (box_confidence : Grid Q)
    (box_class_probs : Grid (list Q)) (i : nat) (m : Q) : Prop :=
  exists c ps,
    nth_error (flatten box_confidence) i = Some c /\
    nth_error (flatten box_class_probs) i = Some ps /\
    is_maximum (class_scores c ps) m.

(** Box number [i] has its maximum per-class score at class [k]. *)
Definition best_class (box_confidence : Grid Q)
    (box_class_probs : Grid (list Q)) (i k : nat) : Prop :=
  exists c ps s,
    nth_error (flatten box_confidence) i = Some c /\
    nth_error (flatten box_class_probs) i = Some ps /\
    nth_error (class_scores c ps) k = Some s /\
    is_maximum (class_scores c ps) s.

(** The positions of the [true] entries of a mask, in increasing order. *)
Fixpoint where_true (mask : list bool) : list nat :=
  match mask with
  | [] => []
  | b :: mask' =>
      (if b then [0%nat] else []) ++ map S (where_true mask')
  end.

(** [fm] and [fk] are the per-box maximum score and arg-max class of the
    enumeration, as [yolo_filter_boxes] computes them. *)
Definition scored (box_confidence : Grid Q) (box_class_probs : Grid (list Q))
    (fm : list Q) (fk : list nat) : Prop :=
  (forall i, nth_error fm i =
     (c <- nth_error (flatten box_confidence) i ;;
      ps <- nth_error (flatten box_class_probs) i ;;
      max_last (class_scores c ps))) /\
  (forall i, nth_error fk i =
     (c <- nth_error (flatten box_confidence) i ;;
      ps <- nth_error (flatten box_class_probs) i ;;
      argmax_last (class_scores c ps))).

(** Two matrices of encodings have one shape. *)
Definition same_shape (x y : Encodings) : Prop :=
  Forall2 (fun r1 r2 => length r1 = length r2) x y.

(** ** Test data *)

Module Example.

(** A grid of one row, two columns and two anchors, with three classes. *)
Definition box_confidence : Grid Q := [[[1; 1 # 2]; [2; 0]]].

Definition boxes : Grid Box :=
  [[[mkBox 0 0 1 1; mkBox 0 0 2 2]; [mkBox 1 1 3 3; mkBox 5 5 6 6]]].

Definition box_class_probs : Grid (list Q) :=
  [[[[1 # 2; 3 # 5; 1 # 10]; [1; 1; 1]];
    [[3 # 10; 3 # 10; 1 # 5]; [1; 2; 3]]]].

Definition threshold : Q := 3 # 5.

(** The detections [yolo_filter_boxes] returns on this grid. *)
Definition detections : Detections :=
  ([3 # 5; 6 # 10], [mkBox 0 0 1 1; mkBox 1 1 3 3], [1%nat; 0%nat]).

(** An overlap measure: the notebook's [iou], 0 where it is undefined. *)
Definition overlap (b1 b2 : Box) : Q :=
  match iou b1 b2 with
  | Some r => r
  | None => 0
  end.

(** Centre and size to corners, and rescaling by the image shape, standing
    for the two imported helpers. *)
Definition yolo_boxes_to_corners (box_xy box_wh : Grid (Q * Q))
    : option (Grid Box) :=
  grid_zip_with
    (fun xy wh =>
       Some (mkBox (fst xy - fst wh / 2) (snd xy - snd wh / 2)
                   (fst xy + fst wh / 2) (snd xy + snd wh / 2)))
    box_xy box_wh.

Definition scale_boxes (boxes : list Box) (image_shape : Q * Q)
    : option (list Box) :=
  let '(height, width) := image_shape in
  Some (map (fun b => mkBox (x1 b * width) (y1 b * height)
                            (x2 b * width) (y2 b * height)) boxes).

Definition box_xy : Grid (Q * Q) :=
  [[[(1 # 2, 1 # 2); (1, 1)]; [(2, 2); (11 # 2, 11 # 2)]]].

Definition box_wh : Grid (Q * Q) :=
  [[[(1, 1); (2, 2)]; [(2, 2); (1, 1)]]].

Definition yolo_outputs : YoloOutputs :=
  (box_confidence, box_xy, box_wh, box_class_probs).

Definition encodings_anchor : Encodings := [[1; 2]; [0; 0]].
Definition encodings_positive : Encodings := [[1; 1]; [3; 0]].
Definition encodings_negative : Encodings := [[4; 2]; [0; 1]].

(** The same encodings as float32 tensors. *)
Definition float32 (n : Z) : spec_float := Floating.of_Z 24 128 n.

Definition float_anchor : Floating.Encodings :=
  map (map float32) [[1; 2]; [0; 0]]%Z.
Definition float_positive : Floating.Encodings :=
  map (map float32) [[1; 1]; [3; 0]]%Z.
Definition float_negative : Floating.Encodings :=
  map (map float32) [[4; 2]; [0; 1]]%Z.

End Example.

(** ** Further vocabulary *)

(** Two results agree: both raise, or both return the same rational. *)
Definition same_result (r r' : option Q) : Prop :=
  match r, r' with
  | Some q, Some q' => q == q'
  | None, None => True
  | _, _ => False
  end.

(** The box moved by [(dx, dy)]. *)
Definition translate (dx dy : Q) (b : Box) : Box :=
  mkBox (x1 b + dx) (y1 b + dy) (x2 b + dx) (y2 b + dy).

(** [l] is [l'] with some entries left out, the order kept. *)
Inductive subsequence {A : Type} : list A -> list A -> Prop :=
| subsequence_nil : subsequence [] []
| subsequence_skip x l l' : subsequence l l' -> subsequence l (x :: l')
| subsequence_keep x l l' : subsequence l l' -> subsequence (x :: l) (x :: l').

(** Squared Euclidean distance of two encodings. *)
Definition squared_distance (u v : list Q) : Q :=
  sum_list (map (fun uv => (fst uv - snd uv) * (fst uv - snd uv))
                (combine u v)).

(** The training examples of a batch: anchor, positive and negative
    encoding, row by row. *)
Definition triplets (anchor positive negative : Encodings)
    : list (list Q * list Q * list Q) :=
  combine (combine anchor positive) negative.

(** The term of one training example in formula (3) before the maximum
    with 0 is taken. *)
Definition basic_term (alpha : Q) (t : list Q * list Q * list Q) : Q :=
  squared_distance (fst (fst t)) (snd (fst t))
  - squared_distance (fst (fst t)) (snd t) + alpha.

(** Formula (3) of the notebook: the sum over the training examples of
    the basic term, cut off below at 0. *)
Definition formula_3 (anchor positive negative : Encodings) (alpha : Q) : Q :=
  sum_list
    (map (fun t => if Qlt_le_dec (basic_term alpha t) 0 then 0
                   else basic_term alpha t)
         (triplets anchor positive negative)).

(** ** NumPy *)

(** A cell of a float array: a number, or [nan]. *)
Inductive Cell : Type :=
| Num (q : Q)
| NaN.

(** A four-dimensional array: its shape and its items.  Only the items
    inside the shape are meaningful. *)
Record Array4 : Type := mkArray4 {
  dim0 : nat;
  dim1 : nat;
  dim2 : nat;
  dim3 : nat;
  item : nat -> nat -> nat -> nat -> Q
}.

Module np.

(** [np.multiply(x, y)] on two arrays of one shape; broadcasting between
    different shapes is not modelled, they are an error here. *)
Definition multiply (x y : Grid Q) : option (Grid Q) :=
  grid_zip_with (fun a b => Some (a * b)) x y.

(** [np.sum(x)] *)
Definition sum (x : Grid Q) : Q := sum_list (flatten x).

(** A bound [k] of a slice [a[start:stop]] on an axis of length [len]: a
    negative bound counts from the end, and every bound is clipped to the
    axis. *)
Definition slice_bound (k : Z) (len : nat) : nat :=
  if (k <? 0)%Z then Z.to_nat (Z.max (k + Z.of_nat len) 0)
  else Nat.min (Z.to_nat k) len.

(** The positions [a[start:stop]] selects on an axis of length [len]. *)
Definition slice_range (start stop : Z) (len : nat) : list nat :=
  let lo := slice_bound start len in
  let hi := slice_bound stop len in
  seq lo (hi - lo).

(** The items of [a[i, r0:r1, c0:c1, c]], row by row. *)
Definition slice2 (a : Array4) (i : nat) (r0 r1 c0 c1 : Z) (c : nat)
    : list Q :=
  flat_map (fun r => map (fun k => item a i r k c)
                         (slice_range c0 c1 (dim2 a)))
           (slice_range r0 r1 (dim1 a)).

(** [np.max(x)]: an empty array is a [ValueError]. *)
Definition max (x : list Q) : option Q := max_last x.

(** [np.mean(x)]: the mean of an empty array is [nan]. *)
Definition mean (x : list Q) : Cell :=
  match x with
  | [] => NaN
  | _ => Num (sum_list x / inject_Z (Z.of_nat (length x)))
  end.

End np.

(** [float(b)]: an array converts when it has exactly one item. *)
Definition py_float (b : Grid Q) : option Q :=
  match flatten b with
  | [x] => Some x
  | _ => None
  end.

(** [int(x)]: truncation towards zero. *)
Definition py_int (x : Q) : Z := Z.quot (Qnum x) (Zpos (Qden x)).

(** ** [conv_single_step] *)

Definition conv_single_step (a_slice_prev W b : Grid Q) : option Q :=
  (* element-wise product between a_slice and W *)
  s <- np.multiply a_slice_prev W ;;
  (* sum over all entries of the volume s *)
  let Z := np.sum s in
  fb <- py_float b ;;
  let Z := Z + fb in
  Some Z.

(** ** [conv_single_step] on float64 arrays *)

(** The same function on NumPy arrays of binary64 numbers, the dtype of
    the arrays the notebook passes. *)
Module np64.

Local Open Scope float_scope.

(** [np.multiply(x, y)] on two arrays of one shape. *)
Definition multiply (x y : Grid float) : option (Grid float) :=
  grid_zip_with (fun a b => Some (a * b)) x y.

(** [np.sum(x)]: the items added to [0.0] one after the other, in the
    order of the array.  NumPy adds a large array pairwise, in blocks, and
    its result can differ from this one in the last bits: what is proved
    of [sum] uses of the order only what every order has. *)
Definition sum (x : Grid float) : float :=
  fold_left PrimFloat.add (flatten x) 0.

(** [float(b)]: an array converts when it has exactly one item. *)
Definition py_float (b : Grid float) : option float :=
  match flatten b with
  | [x] => Some x
  | _ => None
  end.

Definition conv_single_step (a_slice_prev W b : Grid float) : option float :=
  (* element-wise product between a_slice and W *)
  s <- multiply a_slice_prev W ;;
  (* sum over all entries of the volume s *)
  let Z := sum s in
  fb <- py_float b ;;
  let Z := Z + fb in
  Some Z.

End np64.

(** ** [pool_forward] *)

Module Pooling.

Import String.
Local Open Scope string_scope.

(** A Python dict from strings to ints, in insertion order. *)
Definition Dict : Type := list (string * Z).

(** [d[key]]: a missing key is a [KeyError]. *)
Fixpoint getitem (d : Dict) (key : string) : option Z :=
  match d with
  | [] => None
  | (k, v) :: d' => if String.eqb k key then Some v else getitem d' key
  end.

(** [int(1 + (n_prev - f) / stride)]: the division raises on a zero stride. *)
Definition output_dim (n_prev : nat) (f stride : Z) : option Z :=
  q <- Py.div (inject_Z (Z.of_nat n_prev - f)) (inject_Z stride) ;;
  Some (py_int (1 + q)).

(** [range(n)] and the axes of [np.zeros(shape)]: a negative dimension is a
    [ValueError]. *)
Definition dimension (n : Z) : option nat :=
  if (n <? 0)%Z then None else Some (Z.to_nat n).

(** The body of the four loops: the value stored at [A[i, h, w, c]].  An
    unknown mode stores nothing, and the cell keeps the 0 it was created
    with. *)
Definition pool_cell (A_prev : Array4) (f stride : Z) (mode : string)
    (i h w c : nat) : option Cell :=
  let vert_start := (stride * Z.of_nat h)%Z in
  let vert_end := (stride * Z.of_nat h + f)%Z in
  let horiz_start := (stride * Z.of_nat w)%Z in
  let horiz_end := (stride * Z.of_nat w + f)%Z in
  let a_prev_slice :=
    np.slice2 A_prev i horiz_start horiz_end vert_start vert_end c in
  if String.eqb mode "max" then
    v <- np.max a_prev_slice ;; Some (Num v)
  else if String.eqb mode "average" then
    Some (np.mean a_prev_slice)
  else Some (Num 0).

Definition Output : Type := list (list (list (list Cell))).

(** The four loops fill the array created by [np.zeros]; the closing
    [assert] on [A.shape] cannot fail, the array was created with that
    shape. *)
Definition pool_forward (A_prev : Array4) (hparameters : Dict)
    (mode : string) : option (Output * (Array4 * Dict)) :=
  (* retrieve dimensions from the input shape *)
  let m := dim0 A_prev in
  let n_H_prev := dim1 A_prev in
  let n_W_prev := dim2 A_prev in
  let n_C_prev := dim3 A_prev in
  (* retrieve hyperparameters *)
  f <- getitem hparameters "f" ;;
  stride <- getitem hparameters "stride" ;;
  (* the dimensions of the output *)
  n_H <- output_dim n_H_prev f stride ;;
  n_W <- output_dim n_W_prev f stride ;;
  let n_C := n_C_prev in
  n_H <- dimension n_H ;;
  n_W <- dimension n_W ;;
  A <- map_exact (fun i =>
         map_exact (fun h =>
           map_exact (fun w =>
             map_exact (fun c => pool_cell A_prev f stride mode i h w c)
                       (seq 0 n_C))
             (seq 0 n_W))
           (seq 0 n_H))
         (seq 0 m) ;;
  let cache := (A_prev, hparameters) in
  Some (A, cache).

(** The documented output size of a pooling axis, for [f <= n_prev]:
    floor((n_prev - f) / stride) + 1. *)
Definition pooled_dim (n_prev f stride : nat) : nat :=
  ((n_prev - f) / stride + 1)%nat.

(** [A[i, h, w, c]] of an output. *)
Definition output_item (A : Output) (i h w c : nat) : option Cell :=
  r <- nth_error A i ;; r <- nth_error r h ;; r <- nth_error r w ;;
  nth_error r c.

(** A 2 x 2 x 2 x 1 array with items 1 .. 8. *)
Definition example_input : Array4 :=
  mkArray4 2 2 2 1
    (fun i r k _ => inject_Z (Z.of_nat (4 * i + 2 * r + k + 1))).

(** A 1 x 3 x 1 x 1 array of ones: taller than wide. *)
Definition example_tall : Array4 := mkArray4 1 3 1 1 (fun _ _ _ _ => 1).

Definition example_hparameters : Dict := [("f", 2%Z); ("stride", 1%Z)].

Definition example_unit_window : Dict := [("f", 1%Z); ("stride", 1%Z)].

End Pooling.

(** ** [initialize_parameters_he] *)

Module HeInit.

Import String.
Local Open Scope string_scope.

(** [str(l)] for a non-negative int: its decimal digits. *)
Definition str (l : nat) : string :=
  DecimalString.NilEmpty.string_of_uint (Nat.to_uint l).

Definition Matrix : Type := list (list Q).

(** The dict of parameters, in insertion order. *)
Definition Parameters : Type := list (string * Matrix).

(** [d[key]] *)
Fixpoint getitem (d : Parameters) (key : string) : option Matrix :=
  match d with
  | [] => None
  | (k, v) :: d' => if String.eqb k key then Some v else getitem d' key
  end.

(** [d[key] = value]: an existing key keeps its place. *)
Fixpoint setitem (d : Parameters) (key : string) (value : Matrix)
    : Parameters :=
  match d with
  | [] => [(key, value)]
  | (k, v) :: d' =>
      if String.eqb k key then (k, value) :: d'
      else (k, v) :: setitem d' key value
  end.

(** [np.zeros((rows, cols))] *)
Definition zeros (rows cols : nat) : Matrix := repeat (repeat 0 cols) rows.

Section Generator.

(** NumPy's global random generator and [np.sqrt], which are not part of
    the notebook: the state of the generator, [np.random.seed],
    [np.random.randn] on a state, and the square root. *)
Variable rng : Type.
Variable seed : Z -> rng.
Variable randn : nat -> nat -> rng -> Matrix * rng.
Variable sqrt : Q -> Q.

(** The body of the loop, for layer [l]; the layer sizes are counts.  The
    draw is made before the division, so an exception keeps the generator
    state reached. *)
Definition he_layer (layers_dims : list nat) (l : nat)
    (state : option Parameters * rng) : option Parameters * rng :=
  match state with
  | (None, g) => (None, g)
  | (Some parameters, g) =>
      match nth_error layers_dims l, nth_error layers_dims (l - 1) with
      | Some n_l, Some n_prev =>
          let '(G, g) := randn n_l n_prev g in
          match Py.div 2 (inject_Z (Z.of_nat n_prev)) with
          | None => (None, g)
          | Some q =>
              let W := map (map (fun x => x * sqrt q)) G in
              let parameters := setitem parameters ("W" ++ str l) W in
              let parameters :=
                setitem parameters ("b" ++ str l) (zeros n_l 1) in
              (Some parameters, g)
          end
      | _, _ => (None, g)
      end
  end.

Definition initialize_parameters_he (layers_dims : list nat) (g : rng)
    : option Parameters * rng :=
  let g := seed 3 in
  let parameters : Parameters := [] in
  (* the number of layers *)
  let L := (Datatypes.length layers_dims - 1)%nat in
  fold_left (fun state l => he_layer layers_dims l state)
            (seq 1 L) (Some parameters, g).

(** The state after the first [k] rounds of the loop. *)
Definition rounds (layers_dims : list nat) (k : nat)
    : option Parameters * rng :=
  fold_left (fun state l => he_layer layers_dims l state)
            (seq 1 k) (Some [], seed 3).

(** What the dict holds after [k] rounds: [2 * k] entries, the keys
    ["W" + str(l)] and ["b" + str(l)] for [1 <= l <= k] and no other, each
    bias a column of zeros and each weight matrix a scaled draw. *)
Definition filled (layers_dims : list nat) (k : nat)
    (parameters : Parameters) : Prop :=
  Datatypes.length parameters = (2 * k)%nat /\
  (forall key, getitem parameters key <> None ->
     exists l, (1 <= l <= k)%nat /\
               (key = "W" ++ str l \/ key = "b" ++ str l)) /\
  forall l n_l n_prev,
    (1 <= l <= k)%nat ->
    nth_error layers_dims l = Some n_l ->
    nth_error layers_dims (l - 1) = Some n_prev ->
    getitem parameters ("b" ++ str l) = Some (zeros n_l 1) /\
    exists g q,
      Py.div 2 (inject_Z (Z.of_nat n_prev)) = Some q /\
      getitem parameters ("W" ++ str l)
      = Some (map (map (fun x => x * sqrt q)) (fst (randn n_l n_prev g))).

End Generator.

(** A generator for the examples: the state counts the draws, and every
    draw is the matrix of that count. *)
Definition example_randn (rows cols : nat) (g : nat) : Matrix * nat :=
  (repeat (repeat (inject_Z (Z.of_nat g)) cols) rows, S g).

Definition example_seed (s : Z) : nat := Z.to_nat s.

(** It agrees with the square root at 1, the only value the example takes
    it at. *)
Definition example_sqrt (q : Q) : Q := q.

End HeInit.

(** * Part II: properties *)

(** ** Python built-ins *)



Lemma py_max_same a : Py.max a a = a.
Proof. unfold Py.max; destruct (Qlt_le_dec a a); reflexivity. Qed.

Lemma py_min_same a : Py.min a a = a.
Proof. unfold Py.min; destruct (Qlt_le_dec a a); reflexivity. Qed.

Lemma py_div_some a b : ~ b == 0 -> Py.div a b = Some (a / b).
Proof.
  intros Hb; unfold Py.div.
  destruct (Qeq_bool b 0) eqn:E; [| reflexivity].
  apply Qeq_bool_iff in E; contradiction.
Qed.


(** ** Facts about [iou] *)

Section IouFacts.

Variables box1 box2 : Box.




(** Boxes that leave a gap along x and overlap along y have a negative
    "intersection area", and with it a negative IoU. *)
Lemma iou_negative_across_gap :
  non_degenerate box1 -> non_degenerate box2 ->
  xi2 box1 box2 < xi1 box1 box2 -> yi1 box1 box2 < yi2 box1 box2 ->
  inter_area box1 box2 < 0 /\
  exists r, iou box1 box2 = Some r /\ r < 0.
Proof.
  intros [Hx1 Hy1] [Hx2 Hy2] Hgap Hy.
  assert (Hi : inter_area box1 box2 < 0) by (unfold inter_area; nra).
  assert (Hu : 0 < union_area box1 box2).
  { unfold union_area, box_area. nra. }
  split; [exact Hi |].
  exists (inter_area box1 box2 / union_area box1 box2). split.
  - apply py_div_some. lra.
  - apply Qlt_shift_div_r; [exact Hu | lra].
Qed.

End IouFacts.

(** C3.  [iou] multiplies the raw intersection height and width without
    clamping them at zero: there are two disjoint non-degenerate boxes,
    separated along the x axis only, whose "intersection area" is negative
    and whose IoU is strictly negative, so the result is not confined to
    [0,1]. *)
Theorem iou_negative_on_disjoint_boxes :
  exists box1 box2 r,
    non_degenerate box1 /\ non_degenerate box2 /\ disjoint box1 box2 /\
    xi2 box1 box2 - xi1 box1 box2 < 0 /\
    0 < yi2 box1 box2 - yi1 box1 box2 /\
    inter_area box1 box2 < 0 /\
    iou box1 box2 = Some r /\ r < 0 /\ ~ (0 <= r <= 1).
Proof.
  exists (mkBox 0 0 1 1), (mkBox 2 0 3 1), (-1 # 3).
  split; [split; reflexivity |].
  split; [split; reflexivity |].
  split; [left; reflexivity |].
  split; [reflexivity |].
  split; [reflexivity |].
  split; [reflexivity |].
  split; [reflexivity |].
  split; [reflexivity |].
  intros [H _]; apply H; reflexivity.
Qed.

(** C5.  On the notebook's test boxes the intersection area is 1, the union
    area is 4 + 4 - 1 = 7, and [iou] returns 1/7; the Python quotient of the
    ints 1 and 7 is the binary64 number printed 0.14285714285714285. *)
Theorem iou_scenario :
  let box1 := mkBox 2 1 4 3 in
  let box2 := mkBox 1 2 3 4 in
  inter_area box1 box2 = 1 /\
  box_area box1 = 4 /\ box_area box2 = 4 /\
  union_area box1 box2 = 7 /\
  iou box1 box2 = Some (1 # 7) /\
  Py.int_true_div 1 7 = 0.14285714285714285%float.
Proof. cbv zeta. repeat split; vm_compute; reflexivity. Qed.

(** ** Binary floating point *)

(** Facts about the reference operations, for any binary format. *)
Section Format.
Variables prec emax : Z.

Lemma binary_round_aux_sign s m e l :
  match binary_round_aux prec emax s m e l with
  | S754_zero s' | S754_infinity s' | S754_finite s' _ _ => s' = s
  | S754_nan => True
  end.
Proof.
  unfold binary_round_aux.
  destruct (shr_fexp prec emax m e l) as [mrs' e'].
  destruct (shr_fexp prec emax _ e' loc_Exact) as [mrs'' e''].
  destruct (shr_m mrs''); [reflexivity | | exact I].
  destruct (e'' <=? emax - prec)%Z; reflexivity.
Qed.

Lemma binary_round_aux_canonical s m e :
  bounded prec emax m e = true ->
  binary_round_aux prec emax s (Zpos m) e loc_Exact = S754_finite s m e.
Proof.
  unfold bounded, canonical_mantissa.
  intros [Hc He]%andb_true_iff. apply Z.eqb_eq in Hc.
  unfold binary_round_aux, shr_fexp. cbn [Zdigits2].
  rewrite Hc, Z.sub_diag. cbn [shr shr_record_of_loc shr_m loc_of_shr_record
    round_nearest_even Zdigits2].
  rewrite Hc, Z.sub_diag. cbn [shr shr_record_of_loc shr_m].
  now rewrite He.
Qed.

Lemma binary_round_canonical s m e :
  bounded prec emax m e = true ->
  binary_round prec emax s m e = S754_finite s m e.
Proof.
  intros Hb. unfold binary_round.
  assert (Hc : fexp prec emax (Zpos (digits2_pos m) + e) = e).
  { unfold bounded, canonical_mantissa in Hb.
    apply andb_true_iff in Hb as [Hc _]. now apply Z.eqb_eq in Hc. }
  rewrite Hc. unfold shl_align. rewrite Z.sub_diag.
  now apply binary_round_aux_canonical.
Qed.


Lemma fexp_canonical m e :
  bounded prec emax m e = true ->
  fexp prec emax (Zpos (digits2_pos m) + e) = e /\ (e <= emax - prec)%Z.
Proof.
  unfold bounded, canonical_mantissa.
  intros [Hc He]%andb_true_iff. split; [now apply Z.eqb_eq | now apply Z.leb_le].
Qed.

Lemma binary_round_double s m e :
  bounded prec emax m e = true ->
  binary_round prec emax s m~0 e =
  if (Zpos (digits2_pos m) =? prec)%Z
  then if (e + 1 <=? emax - prec)%Z
       then S754_finite s m (e + 1) else S754_infinity s
  else S754_finite s m~0 e.
Proof.
  intros Hb. destruct (fexp_canonical _ _ Hb) as [Hc He].
  assert (Hd2 : Zpos (digits2_pos m~0) = (Zpos (digits2_pos m) + 1)%Z)
    by (cbn [digits2_pos]; lia).
  unfold binary_round. rewrite Hd2.
  set (d := Zpos (digits2_pos m)) in *.
  unfold fexp in Hc.
  destruct (Z.eqb_spec d prec) as [Hd | Hd].
  - assert (HF : fexp prec emax (d + 1 + e) = (e + 1)%Z)
      by (unfold fexp; lia).
    rewrite HF. unfold shl_align.
    replace (e + 1 - e)%Z with 1%Z by lia. cbv iota beta.
    unfold binary_round_aux, shr_fexp. cbn [Zdigits2]. rewrite Hd2. fold d.
    rewrite HF. replace (e + 1 - e)%Z with 1%Z by lia.
    cbn [orb shr shr_record_of_loc iter_pos shr_1 shr_m loc_of_shr_record
         round_nearest_even Zdigits2].
    fold d.
    replace (fexp prec emax (d + (e + 1)) - (e + 1))%Z with 0%Z
      by (unfold fexp; lia).
    cbn [shr shr_record_of_loc shr_m]. reflexivity.
  - assert (HF : fexp prec emax (d + 1 + e) = e)
      by (unfold fexp; lia).
    rewrite HF. unfold shl_align. rewrite Z.sub_diag. cbv iota beta.
    unfold binary_round_aux, shr_fexp. cbn [Zdigits2]. rewrite Hd2. fold d.
    rewrite HF, Z.sub_diag.
    cbn [shr shr_record_of_loc shr_m loc_of_shr_record
         round_nearest_even Zdigits2].
    rewrite Hd2. fold d. rewrite HF, Z.sub_diag.
    cbn [shr shr_record_of_loc shr_m].
    apply Z.leb_le in He. now rewrite He.
Qed.

Lemma cond_Zopp_double s m :
  (cond_Zopp s (Zpos m) + cond_Zopp s (Zpos m))%Z = cond_Zopp s (Zpos m~0).
Proof. destruct s; cbn; now rewrite Pos.add_diag. Qed.

Lemma binary_normalize_signed s m e :
  binary_normalize prec emax (cond_Zopp s (Zpos m)) e false
  = binary_round prec emax s m e.
Proof. now destruct s. Qed.

(** [x + x] on a finite number. *)
Lemma SFadd_double s m e :
  bounded prec emax m e = true ->
  SFadd prec emax (S754_finite s m e) (S754_finite s m e) =
  if (Zpos (digits2_pos m) =? prec)%Z
  then if (e + 1 <=? emax - prec)%Z
       then S754_finite s m (e + 1) else S754_infinity s
  else S754_finite s m~0 e.
Proof.
  intros Hb. unfold SFadd. rewrite Z.min_id. unfold shl_align.
  rewrite Z.sub_diag. cbn [fst].
  rewrite cond_Zopp_double, binary_normalize_signed.
  now apply binary_round_double.
Qed.

(** [(x + x) - x = x] when [x + x] is finite. *)
Lemma SFsub_double s m e :
  bounded prec emax m e = true ->
  match SFadd prec emax (S754_finite s m e) (S754_finite s m e) with
  | S754_finite s' m' e' =>
      SFsub prec emax (S754_finite s' m' e') (S754_finite s m e)
      = S754_finite s m e
  | _ => True
  end.
Proof.
  intros Hb. rewrite SFadd_double by assumption.
  destruct (Zpos (digits2_pos m) =? prec)%Z.
  - destruct (e + 1 <=? emax - prec)%Z; [| exact I].
    unfold SFsub.
    replace (Z.min (e + 1) e) with e by lia.
    unfold shl_align. rewrite Z.sub_diag.
    replace (e - (e + 1))%Z with (-1)%Z by lia.
    cbn [fst Pos.iter].
    replace (cond_Zopp s (Zpos m~0) - cond_Zopp s (Zpos m))%Z
      with (cond_Zopp s (Zpos m)) by (destruct s; cbn [cond_Zopp]; lia).
    rewrite binary_normalize_signed. now apply binary_round_canonical.
  - unfold SFsub. rewrite Z.min_id. unfold shl_align. rewrite Z.sub_diag.
    cbn [fst].
    replace (cond_Zopp s (Zpos m~0) - cond_Zopp s (Zpos m))%Z
      with (cond_Zopp s (Zpos m)) by (destruct s; cbn [cond_Zopp]; lia).
    rewrite binary_normalize_signed. now apply binary_round_canonical.
Qed.

(** [x / x] is one: the quotient of the mantissas is a power of two. *)
Lemma SFdiv_core_same m e :
  (0 < prec)%Z -> (3 <= emax)%Z ->
  SFdiv_core_binary prec emax (Zpos m) e (Zpos m) e
  = (2 ^ prec, - prec, loc_Exact)%Z.
Proof.
  intros Hp He. unfold SFdiv_core_binary. rewrite !Z.sub_diag.
  replace (Z.min (fexp prec emax 0) 0) with (- prec)%Z
    by (unfold fexp, emin; lia).
  replace (0 - - prec)%Z with prec by lia.
  destruct prec as [| p | p]; try lia.
  rewrite Z.shiftl_mul_pow2 by lia.
  pose proof (Z.div_eucl_eq (Zpos m * 2 ^ Zpos p) (Zpos m)) as Heq.
  pose proof (Z_div_mult_full (2 ^ Zpos p) (Zpos m)) as Hq.
  pose proof (Z_mod_mult (2 ^ Zpos p) (Zpos m)) as Hr.
  unfold Z.div, Z.modulo in Hq, Hr.
  rewrite (Z.mul_comm (Zpos m)).
  destruct (Z.div_eucl (2 ^ Zpos p * Zpos m) (Zpos m)) as [q r].
  cbn [fst snd] in Hq, Hr. rewrite Hq, Hr by lia.
  unfold new_location, new_location_even, new_location_odd.
  now destruct (Z.even (Zpos m)).
Qed.

End Format.

(** *** Values *)

Lemma pow2_pos e : 0 < pow2 e.
Proof. apply Qpower_0_lt. reflexivity. Qed.

Lemma pow2_add a b : pow2 (a + b) == pow2 a * pow2 b.
Proof. apply Qpower_plus. discriminate. Qed.

Lemma pow2_inject n : (0 <= n)%Z -> pow2 n == inject_Z (2 ^ n).
Proof. intros H. unfold pow2. now rewrite Zpower_Qpower. Qed.


Lemma pow2_lt a b : (a < b)%Z -> pow2 a < pow2 b.
Proof.
  intros H. replace b with (a + (b - a))%Z by lia. rewrite pow2_add.
  rewrite (pow2_inject (b - a)) by lia.
  assert (2 <= 2 ^ (b - a))%Z by (apply (Z.pow_le_mono_r 2 1); lia).
  assert (2 <= inject_Z (2 ^ (b - a))) by (now rewrite Zle_Qle in H0).
  pose proof (pow2_pos a). nra.
Qed.




(** ** Digits *)



Lemma digits2_pos_shift m k :
  Zpos (digits2_pos (Pos.iter xO m k)) = (Zpos (digits2_pos m) + Zpos k)%Z.
Proof.
  induction k as [| k IH] using Pos.peano_ind.
  - cbn [Pos.iter digits2_pos]. lia.
  - rewrite Pos.iter_succ. cbn [digits2_pos]. lia.
Qed.


Section ShiftRight.

Local Open Scope Z_scope.

(** ** Shifting a mantissa to the right *)









End ShiftRight.

(** *** Rounding to the format *)

Section RoundingFacts.

Local Open Scope Z_scope.

Section Rounding.

Variables prec emax : Z.
Hypothesis Hprec : 0 < prec.
Hypothesis Hemax : prec < emax.



















End Rounding.

End RoundingFacts.

(** *** Values of the format and their order *)

Section ValueFacts.

Local Open Scope Z_scope.






Section Values.

Variables prec emax : Z.
Hypothesis Hprec : 0 < prec.
Hypothesis Hemax : prec < emax.










End Values.

End ValueFacts.

(** *** The operations *)

Section OperationFacts.

Local Open Scope Z_scope.

Section Operations.

Variables prec emax : Z.
Hypothesis Hprec : 0 < prec.
Hypothesis Hemax : prec < emax.


















End Operations.

End OperationFacts.

(** *** binary64 *)

Section Binary64.

Local Open Scope float_scope.

Lemma Prim2SF_zero : Prim2SF 0 = S754_zero false.
Proof. reflexivity. Qed.

Lemma Prim2SF_one : Prim2SF 1 = S754_finite false 4503599627370496 (-52).
Proof. reflexivity. Qed.

Lemma Prim2SF_infinity : Prim2SF infinity = S754_infinity false.
Proof. reflexivity. Qed.

Lemma SFcompare_finite_refl s m e :
  SFcompare (S754_finite s m e) (S754_finite s m e) = Some Eq.
Proof.
  cbn. rewrite Z.compare_refl, Pos.compare_cont_refl. now destruct s.
Qed.

Lemma eqb_zero_spec x :
  (x =? 0) = match Prim2SF x with S754_zero _ => true | _ => false end.
Proof.
  rewrite eqb_spec, Prim2SF_zero.
  now destruct (Prim2SF x) as [[] | [] | | [] m e].
Qed.

Lemma is_finite_spec x :
  is_finite x = match Prim2SF x with
                | S754_zero _ | S754_finite _ _ _ => true
                | _ => false
                end.
Proof.
  unfold is_finite, is_nan, is_infinity.
  rewrite !eqb_spec, abs_spec, Prim2SF_infinity.
  destruct (Prim2SF x) as [[] | [] | | s m e]; try reflexivity.
  unfold SFeqb. rewrite SFcompare_finite_refl. reflexivity.
Qed.

Lemma SFmul_comm prec emax x y : SFmul prec emax x y = SFmul prec emax y x.
Proof.
  destruct x as [sx | sx | | sx mx ex], y as [sy | sy | | sy my ey];
    cbn [SFmul]; rewrite ?(xorb_comm sx sy); try reflexivity.
  now rewrite Pos.mul_comm, Z.add_comm.
Qed.

Lemma f64_mul_comm x y : x * y = y * x.
Proof. apply Prim2SF_inj. rewrite !mul_spec. apply SFmul_comm. Qed.

Lemma f64_max_same x : F64.max x x = x.
Proof. unfold F64.max. now destruct (x <? x). Qed.

Lemma f64_min_same x : F64.min x x = x.
Proof. unfold F64.min. now destruct (x <? x). Qed.

(** A float is a valid number of the format. *)
Lemma Prim2SF_bounded x s m e :
  Prim2SF x = S754_finite s m e -> bounded prec emax m e = true.
Proof. intros H. pose proof (Prim2SF_valid x) as Hv. now rewrite H in Hv. Qed.

Lemma f64_double_sub x s m e :
  Prim2SF x = S754_finite s m e -> is_finite (x + x) = true -> x + x - x = x.
Proof.
  intros Hx Hfin. apply Prim2SF_inj.
  rewrite is_finite_spec in Hfin. rewrite sub_spec.
  rewrite add_spec in *. rewrite Hx in *. unfold SF64add, SF64sub in *.
  pose proof (SFsub_double prec emax s m e (Prim2SF_bounded _ _ _ _ Hx)) as H.
  pose proof (SFadd_double prec emax s m e (Prim2SF_bounded _ _ _ _ Hx)) as Ha.
  destruct (SFadd prec emax (S754_finite s m e) (S754_finite s m e))
    as [s' | s' | | s' m' e']; try discriminate; [| exact H].
  destruct (Z.pos (digits2_pos m) =? prec)%Z;
    [destruct (e + 1 <=? emax - prec)%Z |]; discriminate.
Qed.

Lemma f64_div_same x s m e : Prim2SF x = S754_finite s m e -> x / x = 1.
Proof.
  intros Hx. apply Prim2SF_inj. rewrite div_spec, Hx, Prim2SF_one.
  unfold SF64div, SFdiv.
  rewrite SFdiv_core_same by (unfold prec, emax; lia).
  rewrite xorb_nilpotent. reflexivity.
Qed.

Lemma f64_inter_area_same b : F64.inter_area b b = F64.box_area b.
Proof.
  unfold F64.inter_area, F64.box_area, F64.xi1, F64.xi2, F64.yi1, F64.yi2.
  rewrite !f64_max_same, !f64_min_same. apply f64_mul_comm.
Qed.

Lemma f64_quotient_not_one x y :
  match Prim2SF (x / y) with
  | S754_finite _ _ _ => False
  | _ => True
  end -> x / y <> 1.
Proof.
  intros H E. rewrite E, Prim2SF_one in H. exact H.
Qed.

(** [a / (a + a - a)] is 1.0 exactly when [a] is not zero and [a + a] does
    not overflow: a zero raises, an infinity or a nan gives nan, and an
    overflowing [a + a] gives 0.0. *)
Lemma f64_self_ratio a :
  F64.div a (a + a - a) = Some 1 <->
  (a =? 0) = false /\ is_finite (a + a) = true.
Proof.
  unfold F64.div. rewrite !eqb_zero_spec, is_finite_spec.
  destruct (Prim2SF a) as [s | s | | s m e] eqn:Ha.
  - rewrite sub_spec, add_spec, Ha.
    split; [| now intros [? _]]. now destruct s.
  - rewrite sub_spec, add_spec, Ha.
    split; [| now destruct s; intros [_ ?]].
    assert (Hnan : SF64sub (SF64add (S754_infinity s) (S754_infinity s))
                     (S754_infinity s) = S754_nan) by now destruct s.
    rewrite Hnan. intros [= H]. exfalso.
    eapply f64_quotient_not_one; [| exact H].
    now rewrite div_spec, sub_spec, add_spec, Ha, Hnan.
  - rewrite sub_spec, add_spec, Ha. cbn.
    split; [| now intros [_ ?]].
    intros [= H]. exfalso. eapply f64_quotient_not_one; [| exact H].
    now rewrite div_spec, Ha.
  - pose proof (Prim2SF_bounded _ _ _ _ Ha) as Hb.
    destruct (is_finite (a + a)) eqn:Hfin.
    + rewrite (f64_double_sub _ _ _ _ Ha Hfin), Ha.
      rewrite is_finite_spec in Hfin. rewrite (f64_div_same _ _ _ _ Ha).
      now rewrite Hfin.
    + rewrite is_finite_spec, add_spec, Ha in Hfin.
      rewrite sub_spec, add_spec, Ha. unfold SF64add in *.
      pose proof (SFadd_double _ _ s _ _ Hb) as Hadd.
      destruct (Z.pos (digits2_pos m) =? prec)%Z;
        [destruct (e + 1 <=? emax - prec)%Z |];
        rewrite Hadd in *; try discriminate Hfin.
      cbn. split; [| now intros [_ ?]].
      intros [= H]. exfalso. eapply f64_quotient_not_one; [| exact H].
      rewrite div_spec, sub_spec, add_spec, Ha. unfold SF64add.
      now rewrite Hadd.
Qed.

Lemma f64_iou_self b :
  F64.iou b b
  = F64.div (F64.box_area b) (F64.box_area b + F64.box_area b - F64.box_area b).
Proof.
  unfold F64.iou, F64.union_area. now rewrite f64_inter_area_same.
Qed.

End Binary64.

(** *** Order and monotonicity on binary64 *)

Section Binary64Order.

Local Open Scope float_scope.


















End Binary64Order.

(** *** The union area on floats *)

Section UnionArea.

Local Open Scope float_scope.





End UnionArea.


(** ** [iou] of a box with itself *)

(** On exact numbers a non-degenerate box has IoU 1 with itself. *)
Lemma iou_self_exact (b : Box) :
  non_degenerate b -> exists r, iou b b = Some r /\ r == 1.
Proof.
  intros [Hx Hy].
  assert (Hi : inter_area b b == box_area b).
  { unfold inter_area, box_area, xi1, xi2, yi1, yi2.
    rewrite !py_max_same, !py_min_same. ring. }
  assert (Hu : union_area b b == box_area b).
  { unfold union_area. rewrite Hi. ring. }
  assert (Hpos : 0 < box_area b) by (unfold box_area; nra).
  exists (inter_area b b / union_area b b). split.
  - apply py_div_some. rewrite Hu. lra.
  - rewrite Hi, Hu. field. lra.
Qed.

Lemma int_box_non_degenerate (a b c d : Z) :
  (a < c)%Z -> (b < d)%Z -> non_degenerate (int_box a b c d).
Proof.
  intros Hx Hy. split; cbn [int_box x1 x2 y1 y2]; now rewrite <- Zlt_Qlt.
Qed.

(** C6, as amended.  A non-degenerate box of ints has IoU 1 with itself.
    A non-degenerate box of floats has IoU 1.0 with itself exactly when
    its area, as the code computes it, is not 0.0 (it has not underflowed)
    and the double of that area is finite (nothing has overflowed): then
    the union area equals the area and the quotient is 1.0; otherwise the
    call raises or returns 0.0 or nan. *)
Theorem iou_self_is_one (a b c d : Z) (fb : F64.Box) :
  ((a < c)%Z -> (b < d)%Z ->
   exists r, iou (int_box a b c d) (int_box a b c d) = Some r /\ r == 1) /\
  (F64.non_degenerate fb ->
   (F64.iou fb fb = Some 1%float <->
    (F64.box_area fb =? 0)%float = false /\
    is_finite (F64.box_area fb + F64.box_area fb)%float = true)).
Proof.
  split.
  - intros Hx Hy. now apply iou_self_exact, int_box_non_degenerate.
  - intros _. rewrite f64_iou_self. apply f64_self_ratio.
Qed.

Lemma iou_self_is_one_witness :
  (exists r, iou (int_box 2 1 4 3) (int_box 2 1 4 3) = Some r /\ r == 1) /\
  F64.iou (F64.mkBox 2 1 4 3) (F64.mkBox 2 1 4 3) = Some 1%float.
Proof.
  destruct (iou_self_is_one 2 1 4 3 (F64.mkBox 2 1 4 3)) as [Hint Hfloat].
  split.
  - apply Hint; reflexivity.
  - apply Hfloat; split; reflexivity.
Defined.

(** C6, as stated, fails on floats.  The square of side 2^-600 at the
    origin is non-degenerate, its area underflows to 0.0 and the call
    raises [ZeroDivisionError]; for the square of side 2^600 the area
    overflows and the call returns nan. *)
Lemma iou_self_underflows :
  let small := F64.mkBox 0 0 0x1p-600 0x1p-600 in
  let large := F64.mkBox 0 0 0x1p+600 0x1p+600 in
  F64.non_degenerate small /\ F64.iou small small = None /\
  F64.non_degenerate large /\ F64.iou large large = Some nan.
Proof. cbv zeta. repeat split; reflexivity. Qed.

(** ** The union area *)






(** ** Element-wise operations and the row-major enumeration *)

Section Elementwise.

Context {A B C : Type}.

Lemma bind_some (o : option A) (k : A -> option B) (b : B) :
  bind o k = Some b -> exists a, o = Some a /\ k a = Some b.
Proof. destruct o as [a |]; cbn; [eauto | discriminate]. Qed.

Variable f : A -> B -> option C.

Lemma zip_with_exact_cons a b l1 l2 l3 :
  zip_with_exact f (a :: l1) (b :: l2) = Some l3 ->
  exists c cs, f a b = Some c /\ zip_with_exact f l1 l2 = Some cs /\
               l3 = c :: cs.
Proof.
  cbn [zip_with_exact]. unfold bind.
  destruct (f a b) as [c |]; [| discriminate].
  destruct (zip_with_exact f l1 l2) as [cs |]; [| discriminate].
  intros [= <-]. eauto.
Qed.

Lemma zip_with_exact_nth l1 : forall l2 l3,
  zip_with_exact f l1 l2 = Some l3 ->
  forall i, nth_error l3 i =
            (a <- nth_error l1 i ;; b <- nth_error l2 i ;; f a b).
Proof.
  induction l1 as [| a l1 IH]; intros [| b l2] l3 H i; try discriminate.
  - injection H as <-. destruct i; reflexivity.
  - apply zip_with_exact_cons in H as (c & cs & Hc & Hcs & ->).
    destruct i as [| i]; cbn; [now rewrite Hc | now apply IH].
Qed.

Lemma zip_with_exact_app l1 : forall l2 l3 m1 m2 m3,
  zip_with_exact f l1 l2 = Some l3 ->
  zip_with_exact f m1 m2 = Some m3 ->
  zip_with_exact f (l1 ++ m1) (l2 ++ m2) = Some (l3 ++ m3).
Proof.
  induction l1 as [| a l1 IH]; intros [| b l2] l3 m1 m2 m3 H H'; try discriminate.
  - injection H as <-. exact H'.
  - apply zip_with_exact_cons in H as (c & cs & Hc & Hcs & ->).
    cbn. rewrite Hc. cbn. now rewrite (IH _ _ _ _ _ Hcs H').
Qed.

End Elementwise.

Lemma zip_with_exact_concat {A B C : Type} (f : A -> B -> option C) ll1 :
  forall ll2 ll3,
  zip_with_exact (zip_with_exact f) ll1 ll2 = Some ll3 ->
  zip_with_exact f (concat ll1) (concat ll2) = Some (concat ll3).
Proof.
  induction ll1 as [| l1 ll1 IH]; intros [| l2 ll2] ll3 H; try discriminate.
  - injection H as <-. reflexivity.
  - apply zip_with_exact_cons in H as (c & cs & Hc & Hcs & ->).
    cbn. apply zip_with_exact_app; auto.
Qed.

Lemma grid_zip_with_flatten {A B C : Type} (f : A -> B -> option C) g1 g2 g3 :
  grid_zip_with f g1 g2 = Some g3 ->
  zip_with_exact f (flatten g1) (flatten g2) = Some (flatten g3).
Proof.
  intros H. unfold flatten.
  now apply zip_with_exact_concat, zip_with_exact_concat.
Qed.

Section Mapping.

Context {A B : Type}.
Variable f : A -> option B.

Lemma map_exact_cons a l l' :
  map_exact f (a :: l) = Some l' ->
  exists b bs, f a = Some b /\ map_exact f l = Some bs /\ l' = b :: bs.
Proof.
  cbn [map_exact]. unfold bind.
  destruct (f a) as [b |]; [| discriminate].
  destruct (map_exact f l) as [bs |]; [| discriminate].
  intros [= <-]. eauto.
Qed.

Lemma map_exact_nth l : forall l',
  map_exact f l = Some l' ->
  forall i, nth_error l' i = (a <- nth_error l i ;; f a).
Proof.
  induction l as [| a l IH]; intros l' H i.
  - injection H as <-. destruct i; reflexivity.
  - apply map_exact_cons in H as (b & bs & Hb & Hbs & ->).
    destruct i as [| i]; cbn; [now rewrite Hb | now apply IH].
Qed.

Lemma map_exact_length l : forall l',
  map_exact f l = Some l' -> length l' = length l.
Proof.
  induction l as [| a l IH]; intros l' H.
  - injection H as <-. reflexivity.
  - apply map_exact_cons in H as (b & bs & Hb & Hbs & ->).
    cbn. f_equal. now apply IH.
Qed.

Lemma map_exact_app l : forall l' m m',
  map_exact f l = Some l' -> map_exact f m = Some m' ->
  map_exact f (l ++ m) = Some (l' ++ m').
Proof.
  induction l as [| a l IH]; intros l' m m' H H'.
  - injection H as <-. exact H'.
  - apply map_exact_cons in H as (b & bs & Hb & Hbs & ->).
    cbn. rewrite Hb. cbn. now rewrite (IH _ _ _ Hbs H').
Qed.

End Mapping.

Lemma map_exact_concat {A B : Type} (f : A -> option B) ll : forall ll',
  map_exact (map_exact f) ll = Some ll' ->
  map_exact f (concat ll) = Some (concat ll').
Proof.
  induction ll as [| l ll IH]; intros ll' H.
  - injection H as <-. reflexivity.
  - apply map_exact_cons in H as (b & bs & Hb & Hbs & ->).
    cbn. apply map_exact_app; auto.
Qed.

Lemma grid_map_exact_flatten {A B : Type} (f : A -> option B) g g' :
  grid_map_exact f g = Some g' ->
  map_exact f (flatten g) = Some (flatten g').
Proof.
  intros H. unfold flatten.
  now apply map_exact_concat, map_exact_concat.
Qed.

Lemma grid_map_flatten {A B : Type} (f : A -> B) g :
  flatten (grid_map f g) = map f (flatten g).
Proof.
  unfold flatten, grid_map. now rewrite <- !concat_map.
Qed.

Lemma zip_with_exact_length {A B C : Type} (f : A -> B -> option C) l1 :
  forall l2 l3,
  zip_with_exact f l1 l2 = Some l3 ->
  length l3 = length l1 /\ length l1 = length l2.
Proof.
  induction l1 as [| a l1 IH]; intros [| b l2] l3 H; try discriminate.
  - injection H as <-. split; reflexivity.
  - apply zip_with_exact_cons in H as (c & cs & _ & Hcs & ->).
    destruct (IH _ _ Hcs). cbn. split; congruence.
Qed.

Lemma zip_with_exact_total {A B C : Type} (f : A -> B -> option C) l1 l2 :
  Forall2 (fun a b => exists c, f a b = Some c) l1 l2 ->
  exists l3, zip_with_exact f l1 l2 = Some l3.
Proof.
  induction 1 as [| a b l1 l2 [c Hc] _ [cs Hcs]]; cbn; [eauto |].
  rewrite Hc, Hcs. cbn. eauto.
Qed.

Lemma forall2_of_length {A B : Type} (l1 : list A) : forall l2 : list B,
  length l1 = length l2 -> Forall2 (fun _ _ => True) l1 l2.
Proof.
  induction l1; intros [| b l2] H; try discriminate; constructor; auto.
Qed.

Lemma zip_with_exact_pure {A B C : Type} (g : A -> B -> C) l1 l2 :
  length l1 = length l2 ->
  exists l3, zip_with_exact (fun a b => Some (g a b)) l1 l2 = Some l3.
Proof.
  intros H. apply zip_with_exact_total.
  eapply Forall2_impl; [| apply forall2_of_length, H]. cbn. eauto.
Qed.

(** *** Shapes, and when the operations are defined *)

Lemma zip_with_exact_map {A B C D : Type} (f : A -> B -> option C)
    (hA : A -> D) (hB : B -> D) (hC : C -> D) :
  (forall a b c, f a b = Some c -> hC c = hA a /\ hA a = hB b) ->
  forall l1 l2 l3,
  zip_with_exact f l1 l2 = Some l3 ->
  map hC l3 = map hA l1 /\ map hA l1 = map hB l2.
Proof.
  intros Hf. induction l1 as [| a l1 IH]; intros [| b l2] l3 H;
    try discriminate.
  - injection H as <-. split; reflexivity.
  - apply zip_with_exact_cons in H as (c & cs & Hc & Hcs & ->).
    destruct (Hf _ _ _ Hc), (IH _ _ Hcs). cbn. split; congruence.
Qed.

Lemma zip_with_exact_total_map {A B C D : Type} (f : A -> B -> option C)
    (hA : A -> D) (hB : B -> D) :
  (forall a b, hA a = hB b -> exists c, f a b = Some c) ->
  forall l1 l2,
  map hA l1 = map hB l2 -> exists l3, zip_with_exact f l1 l2 = Some l3.
Proof.
  intros Hf. induction l1 as [| a l1 IH]; intros [| b l2] H;
    try discriminate; cbn; [eauto |].
  injection H as Hab Hl.
  destruct (Hf _ _ Hab) as [c ->], (IH _ Hl) as [cs ->]. cbn. eauto.
Qed.

Lemma grid_zip_with_shape {A B C : Type} (f : A -> B -> option C) g1 g2 g3 :
  grid_zip_with f g1 g2 = Some g3 ->
  shape g3 = shape g1 /\ shape g1 = shape g2.
Proof.
  unfold grid_zip_with, shape. apply zip_with_exact_map.
  intros r1 r2 r3. apply zip_with_exact_map.
  intros c1 c2 c3. apply zip_with_exact_length.
Qed.

Lemma grid_zip_with_total {A B C : Type} (f : A -> B -> option C) g1 g2 :
  (forall a b, exists c, f a b = Some c) ->
  shape g1 = shape g2 -> exists g3, grid_zip_with f g1 g2 = Some g3.
Proof.
  intros Hf. unfold grid_zip_with, shape. apply zip_with_exact_total_map.
  intros r1 r2. apply zip_with_exact_total_map.
  intros c1 c2 Hlen. apply zip_with_exact_total.
  eapply Forall2_impl; [| apply forall2_of_length, Hlen]. cbn. auto.
Qed.

Lemma map_exact_map {A B D : Type} (f : A -> option B)
    (hA : A -> D) (hB : B -> D) :
  (forall a b, f a = Some b -> hB b = hA a) ->
  forall l l', map_exact f l = Some l' -> map hB l' = map hA l.
Proof.
  intros Hf. induction l as [| a l IH]; intros l' H.
  - injection H as <-. reflexivity.
  - apply map_exact_cons in H as (b & bs & Hb & Hbs & ->).
    cbn. f_equal; auto.
Qed.

Lemma map_exact_total {A B : Type} (f : A -> option B) l :
  Forall (fun a => exists b, f a = Some b) l ->
  exists l', map_exact f l = Some l'.
Proof.
  induction 1 as [| a l [b Hb] _ [bs Hbs]]; cbn; [eauto |].
  rewrite Hb, Hbs. cbn. eauto.
Qed.

Lemma grid_map_exact_shape {A B : Type} (f : A -> option B) g g' :
  grid_map_exact f g = Some g' -> shape g' = shape g.
Proof.
  unfold grid_map_exact, shape. apply map_exact_map.
  intros r r'. apply map_exact_map.
  intros c c'. apply map_exact_length.
Qed.

Lemma grid_map_exact_total {A B : Type} (f : A -> option B) g :
  Forall (fun a => exists b, f a = Some b) (flatten g) ->
  exists g', grid_map_exact f g = Some g'.
Proof.
  unfold flatten, grid_map_exact. rewrite !Forall_concat. intros H.
  apply map_exact_total. eapply Forall_impl; [| exact H].
  intros r Hr. apply map_exact_total. eapply Forall_impl; [| exact Hr].
  intros c Hc. now apply map_exact_total.
Qed.

Lemma grid_map_shape {A B : Type} (f : A -> B) g :
  shape (grid_map f g) = shape g.
Proof.
  unfold shape, grid_map. rewrite map_map. apply map_ext.
  intros r. rewrite map_map. apply map_ext.
  intros c. apply length_map.
Qed.

Lemma boolean_mask_total {A : Type} (tensor : Grid A) mask :
  shape tensor = shape mask -> exists out, tf.boolean_mask tensor mask = Some out.
Proof.
  intros H. unfold tf.boolean_mask.
  destruct (grid_zip_with_total (fun (x : A) (b : bool) => Some (x, b))
              tensor mask) as [z ->]; cbn; eauto.
Qed.

(** ** Reductions over the class axis *)

Lemma max_from_spec l : forall best,
  (max_from best l = best \/ In (max_from best l) l) /\
  best <= max_from best l /\
  forall x, In x l -> x <= max_from best l.
Proof.
  induction l as [| y l IH]; intros best; cbn.
  - split; [now left |]. split; [lra | tauto].
  - destruct (IH (if Qlt_le_dec best y then y else best)) as (Hin & Hle & Hall).
    destruct (Qlt_le_dec best y) as [Hlt | Hge].
    + split; [destruct Hin as [-> |]; auto |].
      split; [lra |]. intros x [<- | Hx]; auto.
    + split; [destruct Hin as [-> |]; auto |].
      split; [lra |]. intros x [<- | Hx]; [lra | auto].
Qed.

Lemma max_last_is_maximum l m : max_last l = Some m -> is_maximum l m.
Proof.
  destruct l as [| x l]; [discriminate |]. intros [= <-].
  destruct (max_from_spec l x) as (Hin & Hle & Hall).
  split.
  - destruct Hin as [-> |]; [now left | now right].
  - intros s [<- | Hs]; auto.
Qed.

Lemma is_maximum_max_last l m :
  is_maximum l m -> exists m', max_last l = Some m' /\ m' == m.
Proof.
  intros [Hin Hall]. destruct l as [| x l]; [destruct Hin |].
  exists (max_from x l). split; [reflexivity |].
  destruct (max_last_is_maximum (x :: l) _ eq_refl) as [Hin' Hall'].
  apply Qle_antisym; auto.
Qed.

Lemma argmax_from_spec l : forall pre best best_i,
  nth_error (pre ++ l) best_i = Some best ->
  nth_error (pre ++ l) (argmax_from best best_i (length pre) l)
  = Some (max_from best l).
Proof.
  induction l as [| y l IH]; intros pre best best_i Hb; cbn.
  - exact Hb.
  - replace (pre ++ y :: l) with ((pre ++ [y]) ++ l) in *
      by now rewrite <- app_assoc.
    replace (S (length pre)) with (length (pre ++ [y]))
      by (rewrite length_app; cbn; lia).
    destruct (Qlt_le_dec best y); apply IH; auto.
    rewrite nth_error_app1 by (rewrite length_app; cbn; lia).
    now rewrite nth_error_app2, Nat.sub_diag by lia.
Qed.

Lemma argmax_last_max_last l k :
  argmax_last l = Some k ->
  exists m, max_last l = Some m /\ nth_error l k = Some m.
Proof.
  destruct l as [| x l]; [discriminate |]. intros [= <-].
  exists (max_from x l). split; [reflexivity |].
  exact (argmax_from_spec l [x] x 0%nat eq_refl).
Qed.

(** ** Masks *)

Lemma in_where_true mask : forall i,
  In i (where_true mask) <-> nth_error mask i = Some true.
Proof.
  induction mask as [| b mask IH]; intros i; cbn.
  - split; [tauto | destruct i; discriminate].
  - rewrite in_app_iff, in_map_iff. split.
    + intros [Hi | (j & <- & Hj)].
      * destruct b; [| destruct Hi].
        destruct Hi as [<- | []]. reflexivity.
      * now apply IH.
    + destruct i as [| i]; cbn.
      * intros [= ->]. left. now left.
      * intros H. right. exists i. split; [reflexivity | now apply IH].
Qed.

Lemma where_true_sorted mask : StronglySorted lt (where_true mask).
Proof.
  induction mask as [| b mask IH]; cbn; [constructor |].
  assert (Htail : StronglySorted lt (map S (where_true mask))).
  { induction IH as [| j l Hs IHs Hall]; cbn; constructor; auto.
    rewrite Forall_forall in *. intros k (k' & <- & Hk')%in_map_iff.
    specialize (Hall _ Hk'). lia. }
  destruct b; cbn; [| exact Htail].
  constructor; [exact Htail |].
  rewrite Forall_forall. intros k (k' & <- & _)%in_map_iff. lia.
Qed.

Lemma strongly_sorted_lt_nodup l : StronglySorted lt l -> NoDup l.
Proof.
  induction 1 as [| j l Hs IH Hall]; constructor; auto.
  intros Hin. rewrite Forall_forall in Hall.
  specialize (Hall _ Hin). lia.
Qed.

Lemma forall2_map_S {A : Type} (R : nat -> A -> Prop) l l' :
  Forall2 (fun i x => R (S i) x) l l' -> Forall2 R (map S l) l'.
Proof. induction 1; cbn; constructor; auto. Qed.

(** Masking a sequence gathers it at the positions of the [true]s. *)
Lemma mask_gathers {A : Type} (xs : list A) : forall mask z,
  zip_with_exact (fun x b => Some (x, b)) xs mask = Some z ->
  Forall2 (fun i x => nth_error xs i = Some x)
          (where_true mask) (map fst (filter snd z)).
Proof.
  induction xs as [| x xs IH]; intros [| b mask] z H; try discriminate.
  - injection H as <-. constructor.
  - apply zip_with_exact_cons in H as (c & cs & [= <-] & Hcs & ->).
    cbn [where_true filter snd].
    destruct b; cbn.
    + constructor; [reflexivity |]. apply forall2_map_S. now apply IH.
    + apply forall2_map_S. now apply IH.
Qed.

Lemma boolean_mask_gathers {A : Type} (tensor : Grid A) mask out :
  tf.boolean_mask tensor mask = Some out ->
  Forall2 (fun i x => nth_error (flatten tensor) i = Some x)
          (where_true (flatten mask)) out.
Proof.
  unfold tf.boolean_mask.
  intros (z & Hz & [= <-])%bind_some.
  apply mask_gathers. now apply grid_zip_with_flatten.
Qed.

(** ** [yolo_filter_boxes] *)

Section FilterBoxes.

Variables (box_confidence : Grid Q) (boxes : Grid Box)
          (box_class_probs : Grid (list Q)) (threshold : Q).

Lemma yolo_filter_boxes_kept scores' boxes' classes' :
  yolo_filter_boxes box_confidence boxes box_class_probs threshold
  = Some (scores', boxes', classes') ->
  exists fm fk,
    scored box_confidence box_class_probs fm fk /\
    let kept := where_true (map (Qle_bool threshold) fm) in
    Forall2 (fun i s => nth_error fm i = Some s) kept scores' /\
    Forall2 (fun i b => nth_error (flatten boxes) i = Some b) kept boxes' /\
    Forall2 (fun i k => nth_error fk i = Some k) kept classes'.
Proof.
  unfold yolo_filter_boxes.
  intros (box_scores & Hmul & H)%bind_some.
  apply bind_some in H as (box_classes & Harg & H).
  apply bind_some in H as (box_class_scores & Hmax & H).
  cbv zeta in H.
  apply bind_some in H as (s & Hs & H).
  apply bind_some in H as (b & Hb & H).
  apply bind_some in H as (k & Hk & [= <- <- <-]).
  apply grid_zip_with_flatten in Hmul.
  apply grid_map_exact_flatten in Harg, Hmax.
  apply boolean_mask_gathers in Hs, Hb, Hk.
  unfold K.ge in Hs, Hb, Hk. rewrite grid_map_flatten in Hs, Hb, Hk.
  pose proof (zip_with_exact_nth _ _ _ _ Hmul) as Nmul.
  pose proof (map_exact_nth _ _ _ Harg) as Narg.
  pose proof (map_exact_nth _ _ _ Hmax) as Nmax.
  exists (flatten box_class_scores), (flatten box_classes).
  split; [| cbv zeta; auto].
  split; intros i; [rewrite Nmax | rewrite Narg]; rewrite Nmul;
    destruct (nth_error (flatten box_confidence) i);
    destruct (nth_error (flatten box_class_probs) i); reflexivity.
Qed.

Lemma scored_max fm fk i m :
  scored box_confidence box_class_probs fm fk -> nth_error fm i = Some m ->
  max_class_score box_confidence box_class_probs i m.
Proof.
  intros [Hm _] Hi. rewrite Hm in Hi.
  apply bind_some in Hi as (c & Hc & Hi).
  apply bind_some in Hi as (ps & Hps & Hi).
  exists c, ps. auto using max_last_is_maximum.
Qed.

Lemma max_scored fm fk i m :
  scored box_confidence box_class_probs fm fk -> max_class_score box_confidence box_class_probs i m ->
  exists m', nth_error fm i = Some m' /\ m' == m.
Proof.
  intros [Hm _] (c & ps & Hc & Hps & Hmax).
  apply is_maximum_max_last in Hmax as (m' & Hm' & Heq).
  exists m'. split; [| exact Heq].
  rewrite Hm, Hc, Hps. exact Hm'.
Qed.

Lemma scored_class fm fk i k :
  scored box_confidence box_class_probs fm fk -> nth_error fk i = Some k ->
  best_class box_confidence box_class_probs i k.
Proof.
  intros [_ Hk] Hi. rewrite Hk in Hi.
  apply bind_some in Hi as (c & Hc & Hi).
  apply bind_some in Hi as (ps & Hps & Hi).
  apply argmax_last_max_last in Hi as (m & Hm & Hnth).
  exists c, ps, m. auto using max_last_is_maximum.
Qed.

Lemma kept_iff fm fk i :
  scored box_confidence box_class_probs fm fk ->
  In i (where_true (map (Qle_bool threshold) fm)) <->
  exists m, max_class_score box_confidence box_class_probs i m /\
            threshold <= m.
Proof.
  intros Hsc. rewrite in_where_true, nth_error_map. split.
  - destruct (nth_error fm i) as [m |] eqn:Hi; [| discriminate].
    cbn. intros [= Hle]. apply Qle_bool_iff in Hle.
    exists m. split; [| exact Hle]. eapply scored_max; eauto.
  - intros (m & Hmax & Hle).
    destruct (max_scored fm fk i m Hsc Hmax) as (m' & -> & Heq).
    cbn. f_equal. apply Qle_bool_iff. rewrite Heq. exact Hle.
Qed.

(** C1.  [yolo_filter_boxes] retains exactly the boxes whose maximum
    per-class score (confidence times class probability, maximised over the
    classes) is greater than or equal to the threshold, each once; a box
    whose maximum score equals the threshold is retained.  The outputs are
    the maximum score, the box and the arg-max class of the retained
    boxes. *)
Theorem yolo_filter_boxes_threshold scores' boxes' classes' :
  yolo_filter_boxes box_confidence boxes box_class_probs threshold
  = Some (scores', boxes', classes') ->
  exists kept : list nat,
    NoDup kept /\
    (forall i, In i kept <->
       exists m, max_class_score box_confidence box_class_probs i m /\
                 threshold <= m) /\
    (forall i m, max_class_score box_confidence box_class_probs i m ->
                 m == threshold -> In i kept) /\
    Forall2 (max_class_score box_confidence box_class_probs) kept scores' /\
    Forall2 (fun i b => nth_error (flatten boxes) i = Some b) kept boxes' /\
    Forall2 (best_class box_confidence box_class_probs) kept classes'.
Proof.
  intros (fm & fk & Hsc & Hs & Hb & Hk)%yolo_filter_boxes_kept.
  exists (where_true (map (Qle_bool threshold) fm)).
  split; [apply strongly_sorted_lt_nodup, where_true_sorted |].
  split; [intros i; now apply kept_iff with fk |].
  split.
  - intros i m Hmax Heq. apply kept_iff with fk; [exact Hsc |].
    exists m. split; [exact Hmax | rewrite Heq; apply Qle_refl].
  - split; [| split; [exact Hb |]].
    + eapply Forall2_impl; [| exact Hs]. intros i s. now apply scored_max with fk.
    + eapply Forall2_impl; [| exact Hk]. intros i k. now apply scored_class with fm.
Qed.

(** C7.  [yolo_filter_boxes] preserves order: the surviving scores, boxes
    and classes are those of the surviving positions of the row-major
    enumeration of the input tensors, taken in strictly increasing order. *)
Theorem yolo_filter_boxes_order scores' boxes' classes' :
  yolo_filter_boxes box_confidence boxes box_class_probs threshold
  = Some (scores', boxes', classes') ->
  exists kept : list nat,
    StronglySorted lt kept /\
    (forall i, In i kept <->
       exists m, max_class_score box_confidence box_class_probs i m /\
                 threshold <= m) /\
    Forall2 (max_class_score box_confidence box_class_probs) kept scores' /\
    Forall2 (fun i b => nth_error (flatten boxes) i = Some b) kept boxes' /\
    Forall2 (best_class box_confidence box_class_probs) kept classes'.
Proof.
  intros (fm & fk & Hsc & Hs & Hb & Hk)%yolo_filter_boxes_kept.
  exists (where_true (map (Qle_bool threshold) fm)).
  split; [apply where_true_sorted |].
  split; [intros i; now apply kept_iff with fk |].
  split; [| split; [exact Hb |]].
  - eapply Forall2_impl; [| exact Hs]. intros i s. now apply scored_max with fk.
  - eapply Forall2_impl; [| exact Hk]. intros i k. now apply scored_class with fm.
Qed.

End FilterBoxes.

Lemma yolo_filter_boxes_threshold_witness :
  yolo_filter_boxes Example.box_confidence Example.boxes
                    Example.box_class_probs Example.threshold
  = Some Example.detections /\
  exists kept : list nat,
    NoDup kept /\
    (forall i, In i kept <->
       exists m, max_class_score Example.box_confidence
                                 Example.box_class_probs i m /\
                 Example.threshold <= m) /\
    (forall i m, max_class_score Example.box_confidence
                                 Example.box_class_probs i m ->
                 m == Example.threshold -> In i kept) /\
    Forall2 (max_class_score Example.box_confidence Example.box_class_probs)
            kept [3 # 5; 6 # 10] /\
    Forall2 (fun i b => nth_error (flatten Example.boxes) i = Some b)
            kept [mkBox 0 0 1 1; mkBox 1 1 3 3] /\
    Forall2 (best_class Example.box_confidence Example.box_class_probs)
            kept [1%nat; 0%nat].
Proof.
  split; [reflexivity |].
  apply (yolo_filter_boxes_threshold Example.box_confidence Example.boxes
           Example.box_class_probs Example.threshold).
  reflexivity.
Defined.

Lemma yolo_filter_boxes_order_witness :
  yolo_filter_boxes Example.box_confidence Example.boxes
                    Example.box_class_probs Example.threshold
  = Some Example.detections /\
  exists kept : list nat,
    StronglySorted lt kept /\
    (forall i, In i kept <->
       exists m, max_class_score Example.box_confidence
                                 Example.box_class_probs i m /\
                 Example.threshold <= m) /\
    Forall2 (max_class_score Example.box_confidence Example.box_class_probs)
            kept [3 # 5; 6 # 10] /\
    Forall2 (fun i b => nth_error (flatten Example.boxes) i = Some b)
            kept [mkBox 0 0 1 1; mkBox 1 1 3 3] /\
    Forall2 (best_class Example.box_confidence Example.box_class_probs)
            kept [1%nat; 0%nat].
Proof.
  split; [reflexivity |].
  apply (yolo_filter_boxes_order Example.box_confidence Example.boxes
           Example.box_class_probs Example.threshold).
  reflexivity.
Defined.

(** [yolo_filter_boxes] returns on three tensors of one grid shape whose
    class axis is not empty. *)
Lemma yolo_filter_boxes_returns box_confidence boxes box_class_probs
    threshold :
  shape boxes = shape box_confidence ->
  shape box_class_probs = shape box_confidence ->
  Forall (fun ps => ps <> []) (flatten box_class_probs) ->
  exists d,
    yolo_filter_boxes box_confidence boxes box_class_probs threshold
    = Some d.
Proof.
  intros Hb Hp Hne. unfold yolo_filter_boxes, K.mul_broadcast, K.argmax, K.max.
  destruct (grid_zip_with_total (fun c ps => Some (map (Qmult c) ps))
              box_confidence box_class_probs) as [box_scores Hmul];
    [eauto | congruence |].
  rewrite Hmul. cbn [bind].
  pose proof (grid_zip_with_shape _ _ _ _ Hmul) as [Hshape _].
  pose proof (zip_with_exact_nth _ _ _ _ (grid_zip_with_flatten _ _ _ _ Hmul))
    as Nmul.
  assert (Hne' : Forall (fun l => l <> []) (flatten box_scores)).
  { rewrite Forall_forall in *. intros l (i & Hi)%In_nth_error.
    rewrite Nmul in Hi.
    apply bind_some in Hi as (c & _ & Hi).
    apply bind_some in Hi as (ps & Hps & [= <-]).
    apply nth_error_In, Hne in Hps. destruct ps; [tauto | discriminate]. }
  destruct (grid_map_exact_total argmax_last box_scores) as [box_classes Harg].
  { eapply Forall_impl; [| exact Hne'].
    intros [| x l] Hl; [tauto | cbn; eauto]. }
  destruct (grid_map_exact_total max_last box_scores)
    as [box_class_scores Hmax].
  { eapply Forall_impl; [| exact Hne'].
    intros [| x l] Hl; [tauto | cbn; eauto]. }
  rewrite Harg, Hmax. cbn [bind].
  apply grid_map_exact_shape in Harg, Hmax.
  pose proof (grid_map_shape (fun s => Qle_bool threshold s) box_class_scores)
    as Hmask.
  fold (K.ge box_class_scores threshold) in Hmask.
  destruct (boolean_mask_total box_class_scores
              (K.ge box_class_scores threshold)) as [s ->]; [congruence |].
  destruct (boolean_mask_total boxes (K.ge box_class_scores threshold))
    as [b ->]; [congruence |].
  destruct (boolean_mask_total box_classes (K.ge box_class_scores threshold))
    as [k ->]; [congruence |].
  cbn. eauto.
Qed.

(** ** Non-max suppression *)

Section Suppression.

Variable overlap : Box -> Box -> Q.

Lemma select_length max_output_size iou_threshold candidates :
  forall selected,
  (length (select overlap max_output_size iou_threshold candidates selected)
   <= Nat.max max_output_size (length selected))%nat.
Proof.
  induction candidates as [| c rest IH]; intros selected; cbn; [lia |].
  destruct (max_output_size <=? length selected)%nat eqn:Hfull; [lia |].
  apply Nat.leb_gt in Hfull.
  destruct (suppressed overlap iou_threshold selected c).
  - apply IH.
  - etransitivity; [apply IH |]. rewrite length_app; cbn. lia.
Qed.

Lemma non_max_suppression_length boxes scores max_output_size iou_threshold
    nms_indices :
  non_max_suppression overlap boxes scores max_output_size iou_threshold
  = Some nms_indices ->
  (length nms_indices <= max_output_size)%nat.
Proof.
  unfold non_max_suppression.
  destruct (length boxes =? length scores)%nat; [| discriminate].
  intros [= <-]. rewrite length_map.
  etransitivity; [apply select_length |]. cbn. lia.
Qed.

Lemma gather_length {A : Type} (reference : list A) indices out :
  K.gather reference indices = Some out -> length out = length indices.
Proof. apply map_exact_length. Qed.

(** When the variable can be made, its int32 value is defined. *)
Lemma int32_in_range (value : Z) :
  (- 2 ^ 63 <= value < 2 ^ 63)%Z -> exists v, int32 value = Some v.
Proof.
  intros [Hl Hu]. unfold int32.
  apply Z.leb_le in Hl. apply Z.ltb_lt in Hu. rewrite Hl, Hu. cbn. eauto.
Qed.

(** An int32 value is the argument itself when it fits. *)
Lemma int32_small (value : Z) :
  (- 2 ^ 31 <= value < 2 ^ 31)%Z -> int32 value = Some value.
Proof.
  intros H. unfold int32.
  replace ((- 2 ^ 63 <=? value) && (value <? 2 ^ 63))%Z with true
    by (symmetry; apply andb_true_iff; split;
        [apply Z.leb_le | apply Z.ltb_lt]; lia).
  f_equal. rewrite Z.mod_small; lia.
Qed.


(** C4.  Each of the three sequences returned by
    [yolo_non_max_suppression] has at most [max_boxes] entries. *)
Theorem yolo_non_max_suppression_length scores boxes classes max_boxes
    iou_threshold sess scores' boxes' classes' sess' :
  yolo_non_max_suppression overlap scores boxes classes max_boxes
                           iou_threshold sess
  = (Some (scores', boxes', classes'), sess') ->
  (length scores' <= max_boxes)%nat /\
  (length boxes' <= max_boxes)%nat /\
  (length classes' <= max_boxes)%nat.
Proof.
  unfold yolo_non_max_suppression.
  destruct (int32 (Z.of_nat max_boxes)); [| discriminate].
  intros [= H _].
  apply bind_some in H as (nms_indices & Hnms & H).
  apply bind_some in H as (s & Hs & H).
  apply bind_some in H as (b & Hb & H).
  apply bind_some in H as (k & Hk & [= <- <- <-]).
  apply non_max_suppression_length in Hnms.
  apply gather_length in Hs, Hb, Hk. lia.
Qed.

End Suppression.

Lemma yolo_non_max_suppression_length_witness :
  yolo_non_max_suppression Example.overlap
    [3 # 5; 6 # 10] [mkBox 0 0 1 1; mkBox 1 1 3 3] [1%nat; 0%nat]
    1 (1 # 2) []
  = (Some ([3 # 5], [mkBox 0 0 1 1], [1%nat]), [1%Z]) /\
  (length [3 # 5] <= 1)%nat /\
  (length [mkBox 0 0 1 1] <= 1)%nat /\
  (length [1%nat] <= 1)%nat.
Proof.
  split; [reflexivity |].
  apply (yolo_non_max_suppression_length Example.overlap
           [3 # 5; 6 # 10] [mkBox 0 0 1 1; mkBox 1 1 3 3] [1%nat; 0%nat]
           1 (1 # 2) [] [3 # 5] [mkBox 0 0 1 1] [1%nat] [1%Z]).
  reflexivity.
Defined.

Section SuppressionDefined.

Variable overlap : Box -> Box -> Q.

Lemma in_select max_output_size iou_threshold candidates : forall selected c,
  In c (select overlap max_output_size iou_threshold candidates selected) ->
  In c selected \/ In c candidates.
Proof.
  induction candidates as [| d rest IH]; intros selected c; cbn; [auto |].
  destruct (max_output_size <=? length selected)%nat; [auto |].
  destruct (suppressed overlap iou_threshold selected d); intros H;
    apply IH in H.
  - tauto.
  - rewrite in_app_iff in H. cbn in H. tauto.
Qed.

Lemma in_insert_desc d l c : In c (insert_desc d l) -> c = d \/ In c l.
Proof.
  induction l as [| e l IH]; cbn.
  - intros [<- | []]. now left.
  - destruct (Qlt_le_dec (cand_score d) (cand_score e)); cbn.
    + intros [<- | H]; [auto | apply IH in H; tauto].
    + intros [<- | H]; auto.
Qed.

Lemma in_sort_desc l c : In c (sort_desc l) -> In c l.
Proof.
  induction l as [| d l IH]; cbn; [auto |].
  intros [-> | H]%in_insert_desc; auto.
Qed.

Lemma non_max_suppression_in_range boxes scores max_output_size
    iou_threshold nms_indices :
  non_max_suppression overlap boxes scores max_output_size iou_threshold
  = Some nms_indices ->
  Forall (fun i => (i < length boxes)%nat) nms_indices.
Proof.
  unfold non_max_suppression.
  destruct (length boxes =? length scores)%nat; [| discriminate].
  intros [= <-]. rewrite Forall_forall.
  intros i (c & <- & Hc)%in_map_iff.
  apply in_select in Hc as [[] | Hc]. apply in_sort_desc in Hc.
  destruct c as [[j s] b]. apply in_combine_l, in_combine_l in Hc.
  apply in_seq in Hc. cbn. lia.
Qed.

Lemma gather_total {A : Type} (reference : list A) indices :
  Forall (fun i => (i < length reference)%nat) indices ->
  exists out, K.gather reference indices = Some out.
Proof.
  intros H. apply map_exact_total. eapply Forall_impl; [| exact H].
  intros i Hi. cbn beta in Hi.
  destruct (nth_error reference i) eqn:E; [eauto |].
  apply nth_error_None in E. lia.
Qed.

(** [yolo_non_max_suppression] returns on three sequences of one length,
    for a [max_boxes] that fits an int32. *)
Lemma yolo_non_max_suppression_returns scores boxes classes max_boxes
    iou_threshold sess :
  (Z.of_nat max_boxes < 2 ^ 31)%Z ->
  length boxes = length scores -> length classes = length scores ->
  exists d,
    fst (yolo_non_max_suppression overlap scores boxes classes max_boxes
                                  iou_threshold sess)
    = Some d.
Proof.
  intros Hm Hb Hc. unfold yolo_non_max_suppression.
  destruct (int32_in_range (Z.of_nat max_boxes)) as [v ->]; [lia |].
  cbn [fst].
  destruct (non_max_suppression overlap boxes scores max_boxes iou_threshold)
    as [nms_indices |] eqn:Hnms.
  - apply non_max_suppression_in_range in Hnms. cbn [bind].
    destruct (gather_total scores nms_indices) as [s ->];
      [now rewrite <- Hb |].
    destruct (gather_total boxes nms_indices) as [b ->]; [exact Hnms |].
    destruct (gather_total classes nms_indices) as [k ->];
      [now rewrite Hc, <- Hb |].
    cbn. eauto.
  - unfold non_max_suppression in Hnms.
    rewrite Hb, Nat.eqb_refl in Hnms. discriminate.
Qed.

End SuppressionDefined.

(** ** [yolo_eval] *)

Section Evaluation.

Variable overlap : Box -> Box -> Q.
Variable yolo_boxes_to_corners :
  Grid (Q * Q) -> Grid (Q * Q) -> option (Grid Box).
Variable scale_boxes : list Box -> Q * Q -> option (list Box).

Variables (yolo_outputs : YoloOutputs) (image_shape : Q * Q)
          (max_boxes : nat) (score_threshold iou_threshold : Q).




End Evaluation.


(** ** [triplet_loss] *)

Section FloatingFacts.

Variables prec emax : Z.

Lemma nan_or_nonneg_cases x :
  Floating.nan_or_nonneg x <->
  match x with
  | S754_zero _ | S754_nan => True
  | S754_infinity s | S754_finite s _ _ => s = false
  end.
Proof.
  unfold Floating.nan_or_nonneg.
  destruct x as [[] | [] | | [] m e]; cbn; intuition (try discriminate).
Qed.

Lemma binary_round_sign s m e :
  match binary_round prec emax s m e with
  | S754_zero s' | S754_infinity s' | S754_finite s' _ _ => s' = s
  | S754_nan => True
  end.
Proof.
  unfold binary_round. destruct (shl_align _ _ _) as [mz ez].
  apply binary_round_aux_sign.
Qed.

(** Adding two numbers that are not negative gives no negative number. *)
Lemma SFadd_nan_or_nonneg x y :
  Floating.nan_or_nonneg x -> Floating.nan_or_nonneg y ->
  Floating.nan_or_nonneg (SFadd prec emax x y).
Proof.
  rewrite !nan_or_nonneg_cases.
  destruct x as [sx | sx | | sx mx ex], y as [sy | sy | | sy my ey];
    cbn [SFadd]; intros Hx Hy; subst; try exact I; try reflexivity.
  - now destruct sx, sy.
  - cbv zeta. cbn [cond_Zopp Z.add binary_normalize].
    pose proof (binary_round_sign false
      (fst (shl_align mx ex (Z.min ex ey)) + fst (shl_align my ey (Z.min ex ey)))
      (Z.min ex ey)) as H.
    destruct (binary_round _ _ _ _ _); auto.
Qed.

(** A property of [0.0] and of every term that addition keeps is a
    property of the sum: this is all the facts below use of the order of
    summation. *)
Lemma sum_closed (P : spec_float -> Prop) l :
  P Floating.zero ->
  (forall x y, P x -> P y -> P (SFadd prec emax x y)) ->
  Forall P l -> P (Floating.sum prec emax l).
Proof.
  intros H0 Hadd. unfold Floating.sum. generalize Floating.zero H0.
  induction l as [| x l IH]; intros acc Hacc Hl; [exact Hacc |].
  inversion Hl; subst. cbn [fold_left]. apply IH; auto.
Qed.

Lemma maximum_nan_or_nonneg l :
  Forall Floating.nan_or_nonneg (Floating.maximum_scalar l Floating.zero).
Proof.
  unfold Floating.maximum_scalar. apply Forall_map, Forall_forall.
  intros x _. apply nan_or_nonneg_cases.
  destruct x as [[] | [] | | [] m e]; cbn; auto.
Qed.

Lemma floating_subtract_total (x y : Floating.Encodings) :
  Floating.same_shape x y ->
  exists d, Floating.subtract prec emax x y = Some d /\ length d = length x.
Proof.
  intros Hy. unfold Floating.subtract.
  destruct (zip_with_exact_total
              (zip_with_exact (fun a b => Some (SFsub prec emax a b))) x y)
    as [d Hd].
  - eapply Forall2_impl; [| exact Hy]. cbn. intros r1 r2.
    apply zip_with_exact_pure.
  - exists d. split; [exact Hd |]. now apply zip_with_exact_length in Hd.
Qed.

End FloatingFacts.

(** C10, as amended.  On floats the triplet loss is never negative: every
    value [triplet_loss] returns is either nan or a number [>= 0]
    (possibly [+inf]), whatever the margin [alpha], because it is a sum of
    terms [max(basic_loss, 0)], each of which is nan or [>= 0]; and on
    three encoding matrices of one shape it does return. *)
Theorem triplet_loss_never_negative (prec emax : Z) {T : Type} (y_true : T)
    (anchor positive negative : Floating.Encodings) (alpha : spec_float) :
  (forall loss,
     Floating.triplet_loss prec emax y_true (anchor, positive, negative) alpha
     = Some loss ->
     Floating.nan_or_nonneg loss) /\
  (Floating.same_shape anchor positive ->
   Floating.same_shape anchor negative ->
   exists loss,
     Floating.triplet_loss prec emax y_true (anchor, positive, negative) alpha
     = Some loss).
Proof.
  split.
  - intros loss. unfold Floating.triplet_loss.
    intros (d_pos & _ & H)%bind_some.
    apply bind_some in H as (d_neg & _ & H).
    apply bind_some in H as (diff & _ & [= <-]).
    unfold Floating.reduce_sum. apply sum_closed.
    + right. reflexivity.
    + apply SFadd_nan_or_nonneg.
    + apply maximum_nan_or_nonneg.
  - intros Hp Hn.
    destruct (floating_subtract_total prec emax _ _ Hp) as (d_pos & Hpos & Lpos).
    destruct (floating_subtract_total prec emax _ _ Hn) as (d_neg & Hneg & Lneg).
    destruct (zip_with_exact_pure (SFsub prec emax)
                (Floating.reduce_sum_last prec emax
                   (Floating.square prec emax d_pos))
                (Floating.reduce_sum_last prec emax
                   (Floating.square prec emax d_neg))) as [diff Hdiff].
    { unfold Floating.reduce_sum_last, Floating.square.
      rewrite !length_map. congruence. }
    unfold Floating.triplet_loss, Floating.subtract_vec.
    rewrite Hpos, Hneg. cbn [bind]. rewrite Hdiff. cbn [bind]. eauto.
Qed.

Lemma triplet_loss_never_negative_witness :
  exists loss,
    Floating.triplet_loss 24 128 tt
      (Example.float_anchor, Example.float_positive, Example.float_negative)
      (Example.float32 1)
    = Some loss /\
    Floating.nan_or_nonneg loss.
Proof.
  destruct (triplet_loss_never_negative 24 128 tt
              Example.float_anchor Example.float_positive
              Example.float_negative (Example.float32 1)) as [Hsign Hret].
  destruct Hret as [loss Hloss]; [repeat constructor | repeat constructor |].
  exists loss. split; [exact Hloss | exact (Hsign loss Hloss)].
Defined.

(** C10, as stated, fails on floats.  With the float32 encodings 1e20, 0
    and -1e20 both squared distances overflow to [+inf], their difference
    is nan, and so is the loss: it is not [>= 0].  The same happens on
    float64 tensors with 1e200. *)
Lemma triplet_loss_is_nan :
  (let big := Floating.of_Z 24 128 (10 ^ 20) in
   Floating.triplet_loss 24 128 tt
     ([[big]], [[Floating.zero]], [[SFopp big]]) Floating.zero
   = Some S754_nan) /\
  (let big := Floating.of_Z 53 1024 (10 ^ 200) in
   Floating.triplet_loss 53 1024 tt
     ([[big]], [[Floating.zero]], [[SFopp big]]) Floating.zero
   = Some S754_nan) /\
  SFleb Floating.zero S754_nan = false.
Proof. repeat split; vm_compute; reflexivity. Qed.

(** * Part III: further properties of the code *)

(** ** [iou] *)

Lemma py_max_comm a b : Py.max a b == Py.max b a.
Proof.
  unfold Py.max. destruct (Qlt_le_dec a b), (Qlt_le_dec b a); lra.
Qed.

Lemma py_min_comm a b : Py.min a b == Py.min b a.
Proof.
  unfold Py.min. destruct (Qlt_le_dec a b), (Qlt_le_dec b a); lra.
Qed.

Lemma py_div_compat a a' b b' :
  a == a' -> b == b' -> same_result (Py.div a b) (Py.div a' b').
Proof.
  intros Ha Hb. unfold Py.div.
  destruct (Qeq_bool b 0) eqn:E, (Qeq_bool b' 0) eqn:E'; cbn; auto.
  - apply Qeq_bool_iff in E. apply Qeq_bool_neq in E'. apply E'.
    now rewrite <- Hb.
  - apply Qeq_bool_iff in E'. apply Qeq_bool_neq in E. apply E.
    now rewrite Hb.
  - now rewrite Ha, Hb.
Qed.

Lemma inter_area_comm box1 box2 : inter_area box1 box2 == inter_area box2 box1.
Proof.
  unfold inter_area, xi1, xi2, yi1, yi2.
  rewrite (py_max_comm (x1 box1)), (py_max_comm (y1 box1)),
    (py_min_comm (x2 box1)), (py_min_comm (y2 box1)).
  reflexivity.
Qed.

(** X1.  [iou] is symmetric: [iou(a, b)] and [iou(b, a)] raise together or
    return the same number. *)
Theorem iou_symmetric (box1 box2 : Box) :
  same_result (iou box1 box2) (iou box2 box1).
Proof.
  unfold iou. apply py_div_compat.
  - apply inter_area_comm.
  - unfold union_area. rewrite inter_area_comm. ring.
Qed.

Lemma py_max_shift a b d : Py.max (a + d) (b + d) == Py.max a b + d.
Proof.
  unfold Py.max. destruct (Qlt_le_dec (a + d) (b + d)), (Qlt_le_dec a b); lra.
Qed.

Lemma py_min_shift a b d : Py.min (a + d) (b + d) == Py.min a b + d.
Proof.
  unfold Py.min. destruct (Qlt_le_dec (b + d) (a + d)), (Qlt_le_dec b a); lra.
Qed.

(** X3.  [iou] does not depend on where the pair of boxes lies: moving both
    boxes by the same offset leaves the result unchanged. *)
Theorem iou_translate (dx dy : Q) (box1 box2 : Box) :
  same_result (iou (translate dx dy box1) (translate dx dy box2))
              (iou box1 box2).
Proof.
  assert (Hi : inter_area (translate dx dy box1) (translate dx dy box2)
               == inter_area box1 box2).
  { unfold inter_area, xi1, xi2, yi1, yi2, translate; cbn [x1 y1 x2 y2].
    rewrite !py_max_shift, !py_min_shift. ring. }
  unfold iou. apply py_div_compat; [exact Hi |].
  unfold union_area. rewrite Hi.
  unfold box_area, translate; cbn [x1 y1 x2 y2]. ring.
Qed.

(** *** A gap along both axes, on floats *)

Section CornerGap.

Local Open Scope float_scope.





End CornerGap.



(** ** [yolo_filter_boxes] *)

Lemma forall2_forall_r {A B : Type} (R : A -> B -> Prop) (P : B -> Prop) l l' :
  Forall2 R l l' -> (forall a b, In a l -> R a b -> P b) -> Forall P l'.
Proof.
  induction 1 as [| a b l l' Hab _ IH]; intros HP; constructor.
  - apply (HP a); [now left | exact Hab].
  - apply IH. intros a' b' Ha'. apply HP. now right.
Qed.

Lemma forall2_forall_l {A B : Type} (R : A -> B -> Prop) (P : A -> Prop) l l' :
  Forall2 R l l' -> (forall a b, R a b -> P a) -> Forall P l.
Proof.
  induction 1 as [| a b l l' Hab _ IH]; intros HP; constructor; eauto.
Qed.

Lemma nodup_below_length (l : list nat) (n : nat) :
  NoDup l -> Forall (fun i => (i < n)%nat) l -> (length l <= n)%nat.
Proof.
  intros Hnd Hlt. rewrite <- (length_seq n 0).
  apply NoDup_incl_length; [exact Hnd |].
  intros i Hi. rewrite Forall_forall in Hlt. apply in_seq.
  specialize (Hlt _ Hi). lia.
Qed.

Section FilterBoxesMore.

Variables (box_confidence : Grid Q) (boxes : Grid Box)
          (box_class_probs : Grid (list Q)) (threshold : Q).

(** X6.  The three sequences [yolo_filter_boxes] returns have one length,
    and it is at most the number of boxes of the grid. *)
Theorem yolo_filter_boxes_lengths scores' boxes' classes' :
  yolo_filter_boxes box_confidence boxes box_class_probs threshold
  = Some (scores', boxes', classes') ->
  length scores' = length boxes' /\
  length classes' = length boxes' /\
  (length boxes' <= length (flatten boxes))%nat.
Proof.
  intros (fm & fk & Hsc & Hs & Hb & Hk)%yolo_filter_boxes_kept.
  cbv zeta in Hs, Hb, Hk.
  apply Forall2_length in Hs, Hk. pose proof (Forall2_length Hb) as Lb.
  split; [congruence |]. split; [congruence |].
  rewrite <- Lb. apply nodup_below_length.
  - apply strongly_sorted_lt_nodup, where_true_sorted.
  - eapply forall2_forall_l; [exact Hb |].
    intros i b Hi. cbn beta. apply nth_error_Some. congruence.
Qed.

Lemma filtered_scores_ge scores' boxes' classes' :
  yolo_filter_boxes box_confidence boxes box_class_probs threshold
  = Some (scores', boxes', classes') ->
  Forall (fun s => threshold <= s) scores'.
Proof.
  intros (fm & fk & Hsc & Hs & Hb & Hk)%yolo_filter_boxes_kept.
  cbv zeta in Hs. eapply forall2_forall_r; [exact Hs |].
  intros i s Hi Hnth. cbn beta.
  apply in_where_true in Hi. rewrite nth_error_map, Hnth in Hi.
  injection Hi as Hi. now apply Qle_bool_iff.
Qed.

(** X7.  Every score [yolo_filter_boxes] returns is greater than or equal
    to the threshold. *)
Theorem yolo_filter_boxes_scores_above scores' boxes' classes' :
  yolo_filter_boxes box_confidence boxes box_class_probs threshold
  = Some (scores', boxes', classes') ->
  Forall (fun s => threshold <= s) scores'.
Proof. apply filtered_scores_ge. Qed.

(** X8.  When every box has [n] class probabilities, every class index
    [yolo_filter_boxes] returns is below [n]. *)
Theorem yolo_filter_boxes_classes_in_range (n : nat) scores' boxes' classes' :
  Forall (fun ps => length ps = n) (flatten box_class_probs) ->
  yolo_filter_boxes box_confidence boxes box_class_probs threshold
  = Some (scores', boxes', classes') ->
  Forall (fun k => (k < n)%nat) classes'.
Proof.
  intros Hn (fm & fk & Hsc & Hs & Hb & Hk)%yolo_filter_boxes_kept.
  cbv zeta in Hk. eapply forall2_forall_r; [exact Hk |].
  intros i k _ Hnth. cbn beta.
  destruct (scored_class _ _ _ _ _ _ Hsc Hnth)
    as (c & ps & s & _ & Hps & Hks & _).
  rewrite Forall_forall in Hn. apply nth_error_In, Hn in Hps.
  assert (Hlt : (k < length (class_scores c ps))%nat)
    by (apply nth_error_Some; congruence).
  unfold class_scores in Hlt. rewrite length_map in Hlt. lia.
Qed.

End FilterBoxesMore.

Lemma yolo_filter_boxes_lengths_witness :
  length [3 # 5; 6 # 10] = length [mkBox 0 0 1 1; mkBox 1 1 3 3] /\
  length [1%nat; 0%nat] = length [mkBox 0 0 1 1; mkBox 1 1 3 3] /\
  (length [mkBox 0 0 1 1; mkBox 1 1 3 3] <= length (flatten Example.boxes))%nat.
Proof.
  apply (yolo_filter_boxes_lengths Example.box_confidence Example.boxes
           Example.box_class_probs Example.threshold).
  reflexivity.
Defined.

Lemma yolo_filter_boxes_scores_above_witness :
  Forall (fun s => Example.threshold <= s) [3 # 5; 6 # 10].
Proof.
  apply (yolo_filter_boxes_scores_above Example.box_confidence Example.boxes
           Example.box_class_probs Example.threshold [3 # 5; 6 # 10]
           [mkBox 0 0 1 1; mkBox 1 1 3 3] [1%nat; 0%nat]).
  reflexivity.
Defined.

Lemma yolo_filter_boxes_classes_in_range_witness :
  Forall (fun k => (k < 3)%nat) [1%nat; 0%nat].
Proof.
  apply (yolo_filter_boxes_classes_in_range Example.box_confidence
           Example.boxes Example.box_class_probs Example.threshold 3
           [3 # 5; 6 # 10] [mkBox 0 0 1 1; mkBox 1 1 3 3] [1%nat; 0%nat]).
  - repeat constructor.
  - reflexivity.
Defined.

Lemma mask_subsequence {A : Type} (xs : list A) : forall m1 m2 z1 z2,
  zip_with_exact (fun x b => Some (x, b)) xs m1 = Some z1 ->
  zip_with_exact (fun x b => Some (x, b)) xs m2 = Some z2 ->
  Forall2 (fun b2 b1 : bool => b2 = true -> b1 = true) m2 m1 ->
  subsequence (map fst (filter snd z2)) (map fst (filter snd z1)).
Proof.
  induction xs as [| x xs IH]; intros [| b1 m1] [| b2 m2] z1 z2 H1 H2 Hm;
    try discriminate.
  - injection H1 as <-. injection H2 as <-. constructor.
  - apply zip_with_exact_cons in H1 as (c1 & cs1 & [= <-] & Hcs1 & ->).
    apply zip_with_exact_cons in H2 as (c2 & cs2 & [= <-] & Hcs2 & ->).
    inversion Hm as [| ? ? ? ? Hb Hm']; subst.
    specialize (IH _ _ _ _ Hcs1 Hcs2 Hm').
    cbn [filter snd]. destruct b2; cbn [map fst].
    + rewrite (Hb eq_refl). cbn [map fst]. now constructor.
    + destruct b1; cbn [map fst]; [now constructor | exact IH].
Qed.

Lemma ge_masks_nested (t1 t2 : Q) (l : list Q) :
  t1 <= t2 ->
  Forall2 (fun b2 b1 : bool => b2 = true -> b1 = true)
          (map (Qle_bool t2) l) (map (Qle_bool t1) l).
Proof.
  intros Ht. induction l as [| s l IH]; cbn; constructor; [| exact IH].
  rewrite !Qle_bool_iff. lra.
Qed.

Lemma boolean_mask_subsequence {A : Type} (tensor : Grid A) (x : Grid Q)
    (t1 t2 : Q) out1 out2 :
  t1 <= t2 ->
  tf.boolean_mask tensor (K.ge x t1) = Some out1 ->
  tf.boolean_mask tensor (K.ge x t2) = Some out2 ->
  subsequence out2 out1.
Proof.
  unfold tf.boolean_mask.
  intros Ht (z1 & Hz1 & [= <-])%bind_some (z2 & Hz2 & [= <-])%bind_some.
  apply grid_zip_with_flatten in Hz1, Hz2.
  unfold K.ge in Hz1, Hz2. rewrite grid_map_flatten in Hz1, Hz2.
  eapply mask_subsequence; eauto using ge_masks_nested.
Qed.

(** X9.  Raising the threshold only removes detections: what
    [yolo_filter_boxes] returns at the higher threshold is what it returns
    at the lower one with some entries left out, in the same order. *)
Theorem yolo_filter_boxes_monotone (box_confidence : Grid Q)
    (boxes : Grid Box) (box_class_probs : Grid (list Q)) (t1 t2 : Q)
    scores1 boxes1 classes1 scores2 boxes2 classes2 :
  t1 <= t2 ->
  yolo_filter_boxes box_confidence boxes box_class_probs t1
  = Some (scores1, boxes1, classes1) ->
  yolo_filter_boxes box_confidence boxes box_class_probs t2
  = Some (scores2, boxes2, classes2) ->
  subsequence scores2 scores1 /\
  subsequence boxes2 boxes1 /\
  subsequence classes2 classes1.
Proof.
  intros Ht H1 H2. unfold yolo_filter_boxes in H1, H2.
  apply bind_some in H1 as (box_scores & Hmul & H1).
  apply bind_some in H1 as (box_classes & Harg & H1).
  apply bind_some in H1 as (box_class_scores & Hmax & H1).
  rewrite Hmul in H2. cbn [bind] in H2.
  rewrite Harg in H2. cbn [bind] in H2.
  rewrite Hmax in H2. cbn [bind] in H2.
  cbv zeta in H1, H2.
  apply bind_some in H1 as (s1 & Hs1 & H1).
  apply bind_some in H1 as (b1 & Hb1 & H1).
  apply bind_some in H1 as (k1 & Hk1 & [= <- <- <-]).
  apply bind_some in H2 as (s2 & Hs2 & H2).
  apply bind_some in H2 as (b2 & Hb2 & H2).
  apply bind_some in H2 as (k2 & Hk2 & [= <- <- <-]).
  repeat split; eapply boolean_mask_subsequence; eauto.
Qed.

Lemma yolo_filter_boxes_monotone_witness :
  yolo_filter_boxes Example.box_confidence Example.boxes
                    Example.box_class_probs (1 # 2)
  = Some ([3 # 5; 1 # 2; 6 # 10],
          [mkBox 0 0 1 1; mkBox 0 0 2 2; mkBox 1 1 3 3],
          [1%nat; 0%nat; 0%nat]) /\
  subsequence [3 # 5; 6 # 10] [3 # 5; 1 # 2; 6 # 10] /\
  subsequence [mkBox 0 0 1 1; mkBox 1 1 3 3]
              [mkBox 0 0 1 1; mkBox 0 0 2 2; mkBox 1 1 3 3] /\
  subsequence [1%nat; 0%nat] [1%nat; 0%nat; 0%nat].
Proof.
  split; [reflexivity |].
  apply (yolo_filter_boxes_monotone Example.box_confidence Example.boxes
           Example.box_class_probs (1 # 2) (3 # 5)).
  - discriminate.
  - reflexivity.
  - reflexivity.
Defined.

(** X27.  [yolo_filter_boxes] has no error path of its own: on three
    tensors of one grid shape whose class axis is not empty it returns. *)
Theorem yolo_filter_boxes_defined (box_confidence : Grid Q)
    (boxes : Grid Box) (box_class_probs : Grid (list Q)) (threshold : Q) :
  shape boxes = shape box_confidence ->
  shape box_class_probs = shape box_confidence ->
  Forall (fun ps => ps <> []) (flatten box_class_probs) ->
  exists d,
    yolo_filter_boxes box_confidence boxes box_class_probs threshold
    = Some d.
Proof. apply yolo_filter_boxes_returns. Qed.

Lemma yolo_filter_boxes_defined_witness :
  exists d,
    yolo_filter_boxes Example.box_confidence Example.boxes
                      Example.box_class_probs Example.threshold
    = Some d.
Proof.
  apply (yolo_filter_boxes_defined Example.box_confidence Example.boxes
           Example.box_class_probs Example.threshold).
  - reflexivity.
  - reflexivity.
  - repeat constructor; discriminate.
Defined.

(** ** [yolo_non_max_suppression] and [yolo_eval] *)

Lemma gather_forall2 {A : Type} (reference : list A) indices : forall out,
  K.gather reference indices = Some out ->
  Forall2 (fun i x => nth_error reference i = Some x) indices out.
Proof.
  unfold K.gather.
  induction indices as [| i indices IH]; intros out H.
  - injection H as <-. constructor.
  - apply map_exact_cons in H as (x & xs & Hx & Hxs & ->).
    constructor; auto.
Qed.

Lemma gather_forall {A : Type} (P : A -> Prop) (reference : list A)
    indices out :
  Forall P reference -> K.gather reference indices = Some out -> Forall P out.
Proof.
  intros HP H. apply gather_forall2 in H.
  eapply forall2_forall_r; [exact H |].
  intros i x _ Hx. cbn beta in Hx. rewrite Forall_forall in HP.
  eapply HP, nth_error_In, Hx.
Qed.

Section Detections.

Variable overlap : Box -> Box -> Q.

Lemma yolo_non_max_suppression_gathers scores boxes classes max_boxes
    iou_threshold sess scores' boxes' classes' sess' :
  yolo_non_max_suppression overlap scores boxes classes max_boxes
                           iou_threshold sess
  = (Some (scores', boxes', classes'), sess') ->
  exists nms_indices,
    K.gather scores nms_indices = Some scores' /\
    K.gather boxes nms_indices = Some boxes' /\
    K.gather classes nms_indices = Some classes'.
Proof.
  unfold yolo_non_max_suppression.
  destruct (int32 (Z.of_nat max_boxes)); [| discriminate].
  intros [= H _].
  apply bind_some in H as (nms_indices & _ & H).
  apply bind_some in H as (s & Hs & H).
  apply bind_some in H as (b & Hb & H).
  apply bind_some in H as (k & Hk & [= <- <- <-]).
  eauto.
Qed.

(** X10.  The detections [yolo_non_max_suppression] returns are input
    detections, kept together: the score, box and class at one output
    position are the score, box and class of one input position, so the
    three outputs have one length. *)
Theorem yolo_non_max_suppression_aligned scores boxes classes max_boxes
    iou_threshold sess scores' boxes' classes' sess' :
  yolo_non_max_suppression overlap scores boxes classes max_boxes
                           iou_threshold sess
  = (Some (scores', boxes', classes'), sess') ->
  (exists positions : list nat,
     Forall2 (fun i s => nth_error scores i = Some s) positions scores' /\
     Forall2 (fun i b => nth_error boxes i = Some b) positions boxes' /\
     Forall2 (fun i k => nth_error classes i = Some k) positions classes') /\
  length scores' = length boxes' /\ length classes' = length boxes'.
Proof.
  intros (idx & Hs & Hb & Hk)%yolo_non_max_suppression_gathers.
  split.
  - exists idx. auto using gather_forall2.
  - apply gather_length in Hs, Hb, Hk. split; congruence.
Qed.

Variable yolo_boxes_to_corners :
  Grid (Q * Q) -> Grid (Q * Q) -> option (Grid Box).
Variable scale_boxes : list Box -> Q * Q -> option (list Box).

(** X11.  Every score [yolo_eval] returns is greater than or equal to
    [score_threshold], whatever the two imported helpers and the
    suppression select. *)
Theorem yolo_eval_scores_above (yolo_outputs : YoloOutputs)
    (image_shape : Q * Q) (max_boxes : nat)
    (score_threshold iou_threshold : Q) sess scores boxes classes sess' :
  yolo_eval overlap yolo_boxes_to_corners scale_boxes yolo_outputs
            image_shape max_boxes score_threshold iou_threshold sess
  = (Some (scores, boxes, classes), sess') ->
  Forall (fun s => score_threshold <= s) scores.
Proof.
  unfold yolo_eval.
  destruct yolo_outputs as [[[box_confidence box_xy] box_wh] box_class_probs].
  destruct (yolo_boxes_to_corners box_xy box_wh) as [corners |];
    [| discriminate].
  destruct (yolo_filter_boxes box_confidence corners box_class_probs
              score_threshold) as [[[s b] k] |] eqn:Hf; [| discriminate].
  destruct (scale_boxes b image_shape) as [b' |]; [| discriminate].
  intros (idx & Hs & _)%yolo_non_max_suppression_gathers.
  eapply gather_forall; [| exact Hs].
  eapply filtered_scores_ge, Hf.
Qed.

End Detections.

Lemma yolo_non_max_suppression_aligned_witness :
  (exists positions : list nat,
     Forall2 (fun i s => nth_error [3 # 5; 6 # 10] i = Some s)
             positions [3 # 5] /\
     Forall2 (fun i b => nth_error [mkBox 0 0 1 1; mkBox 1 1 3 3] i = Some b)
             positions [mkBox 0 0 1 1] /\
     Forall2 (fun i k => nth_error [1%nat; 0%nat] i = Some k)
             positions [1%nat]) /\
  length [3 # 5] = length [mkBox 0 0 1 1] /\
  length [1%nat] = length [mkBox 0 0 1 1].
Proof.
  apply (yolo_non_max_suppression_aligned Example.overlap
           [3 # 5; 6 # 10] [mkBox 0 0 1 1; mkBox 1 1 3 3] [1%nat; 0%nat]
           1 (1 # 2) [] [3 # 5] [mkBox 0 0 1 1] [1%nat] [1%Z]).
  reflexivity.
Defined.

Lemma yolo_eval_scores_above_witness :
  Forall (fun s => 3 # 5 <= s) [3 # 5; 6 # 10].
Proof.
  apply (yolo_eval_scores_above Example.overlap Example.yolo_boxes_to_corners
           Example.scale_boxes Example.yolo_outputs (720, 1280) 10
           (3 # 5) (1 # 2) [] [3 # 5; 6 # 10]
           [mkBox (0 # 4) (0 # 4) (5120 # 4) (2880 # 4);
            mkBox (2560 # 2) (1440 # 2) (7680 # 2) (4320 # 2)]
           [1%nat; 0%nat] [10%Z]).
  reflexivity.
Defined.

(** ** [triplet_loss] *)

Lemma zip_with_exact_as_map {A B C : Type} (f : A -> B -> option C)
    (h : A -> B -> C) :
  (forall a b c, f a b = Some c -> c = h a b) ->
  forall l1 l2 l3,
  zip_with_exact f l1 l2 = Some l3 ->
  l3 = map (fun ab => h (fst ab) (snd ab)) (combine l1 l2).
Proof.
  intros Hf. induction l1 as [| a l1 IH]; intros [| b l2] l3 H;
    try discriminate.
  - injection H as <-. reflexivity.
  - apply zip_with_exact_cons in H as (c & cs & Hc & Hcs & ->).
    cbn. f_equal; auto.
Qed.

Lemma combine_map_combine {A B C D E : Type} (f : A * B -> D)
    (g : A * C -> E) (la : list A) : forall (lb : list B) (lc : list C),
  combine (map f (combine la lb)) (map g (combine la lc))
  = map (fun t => (f (fst (fst t), snd (fst t)), g (fst (fst t), snd t)))
        (combine (combine la lb) lc).
Proof.
  induction la as [| a la IH]; intros [| b lb] [| c lc]; cbn;
    try reflexivity.
  f_equal. apply IH.
Qed.

Lemma subtract_as_map x y d :
  tf.subtract x y = Some d ->
  d = map (fun r => map (fun uv => fst uv - snd uv)
                        (combine (fst r) (snd r)))
          (combine x y).
Proof.
  unfold tf.subtract.
  apply (zip_with_exact_as_map _
           (fun u v => map (fun uv => fst uv - snd uv) (combine u v))).
  intros u v c.
  apply (zip_with_exact_as_map _ (fun a b => a - b)). now intros a b ? [= <-].
Qed.

Lemma distances_as_map x y d :
  tf.subtract x y = Some d ->
  tf.reduce_sum_last (tf.square d)
  = map (fun r => squared_distance (fst r) (snd r)) (combine x y).
Proof.
  intros ->%subtract_as_map.
  unfold tf.reduce_sum_last, tf.square, squared_distance.
  rewrite !map_map. apply map_ext. intros [u v]. cbn [fst snd].
  now rewrite map_map.
Qed.

Lemma triplet_loss_closed_form {T : Type} (y_true : T)
    (anchor positive negative : Encodings) (alpha loss : Q) :
  triplet_loss y_true (anchor, positive, negative) alpha = Some loss ->
  loss = formula_3 anchor positive negative alpha.
Proof.
  unfold triplet_loss.
  intros (d_pos & Hpos & H)%bind_some.
  apply bind_some in H as (d_neg & Hneg & H).
  apply bind_some in H as (diff & Hdiff & [= <-]).
  rewrite (distances_as_map _ _ _ Hpos), (distances_as_map _ _ _ Hneg)
    in Hdiff.
  apply (zip_with_exact_as_map _ (fun a b => a - b)) in Hdiff;
    [| now intros a b ? [= <-]].
  rewrite combine_map_combine in Hdiff. subst diff.
  unfold formula_3, tf.reduce_sum, tf.maximum_scalar, tf.add_scalar,
    triplets, basic_term.
  rewrite !map_map. reflexivity.
Qed.

(** X12.  [triplet_loss] computes formula (3) of the notebook: the sum over
    the training examples of the squared distance to the positive, minus
    the squared distance to the negative, plus [alpha], cut off below at
    0. *)
Theorem triplet_loss_is_formula_3 {T : Type} (y_true : T)
    (anchor positive negative : Encodings) (alpha loss : Q) :
  triplet_loss y_true (anchor, positive, negative) alpha = Some loss ->
  loss = formula_3 anchor positive negative alpha.
Proof. apply triplet_loss_closed_form. Qed.

Lemma triplet_loss_is_formula_3_witness :
  41 # 5 = formula_3 Example.encodings_anchor Example.encodings_positive
                     Example.encodings_negative (1 # 5).
Proof.
  apply (triplet_loss_is_formula_3 tt Example.encodings_anchor
           Example.encodings_positive Example.encodings_negative (1 # 5)).
  reflexivity.
Defined.




(** ** [conv_single_step] *)

Lemma zip_with_exact_sym {A B C : Type} (f : A -> B -> option C)
    (g : B -> A -> option C) :
  (forall a b, f a b = g b a) ->
  forall l1 l2, zip_with_exact f l1 l2 = zip_with_exact g l2 l1.
Proof.
  intros Hfg. induction l1 as [| a l1 IH]; intros [| b l2]; cbn;
    try reflexivity.
  now rewrite Hfg, IH.
Qed.

Lemma qmult_comm_eq (a b : Q) : a * b = b * a.
Proof.
  unfold Qmult. f_equal; [apply Z.mul_comm | apply Pos.mul_comm].
Qed.

Lemma multiply_comm (x y : Grid Q) : np.multiply x y = np.multiply y x.
Proof.
  unfold np.multiply, grid_zip_with.
  apply zip_with_exact_sym. intros r1 r2.
  apply zip_with_exact_sym. intros c1 c2.
  apply zip_with_exact_sym. intros a b. now rewrite qmult_comm_eq.
Qed.

(** X16.  [conv_single_step] treats the slice and the filter alike:
    exchanging them changes neither the result nor whether it raises. *)
Theorem conv_single_step_symmetric (a_slice_prev W b : Grid Q) :
  conv_single_step a_slice_prev W b = conv_single_step W a_slice_prev b.
Proof. unfold conv_single_step. now rewrite multiply_comm. Qed.

Section ZeroFilter.

Local Open Scope float_scope.

Lemma f64_mul_by_zero a w :
  is_finite a = true -> (w =? 0) = true -> (a * w =? 0) = true.
Proof.
  rewrite is_finite_spec, !eqb_zero_spec, mul_spec.
  destruct (Prim2SF a) as [sa | sa | | sa ma ea],
           (Prim2SF w) as [sw | sw | | sw mw ew]; try discriminate; reflexivity.
Qed.

Lemma f64_add_zeros x y :
  (x =? 0) = true -> (y =? 0) = true -> (x + y =? 0) = true.
Proof.
  rewrite !eqb_zero_spec, add_spec.
  destruct (Prim2SF x) as [sx | sx | | sx mx ex],
           (Prim2SF y) as [sy | sy | | sy my ey]; try discriminate.
  now destruct sx, sy.
Qed.

(** Adding a zero changes nothing, except possibly the sign of a zero. *)
Lemma f64_zero_add x y :
  (x =? 0) = true -> x + y = y \/ ((x + y =? 0) = true /\ (y =? 0) = true).
Proof.
  intros Hx.
  destruct (y =? 0) eqn:Hy; [right; split; auto using f64_add_zeros |].
  left. apply Prim2SF_inj. rewrite eqb_zero_spec in Hx, Hy.
  rewrite add_spec.
  destruct (Prim2SF x) as [sx | sx | | sx mx ex]; try discriminate.
  now destruct (Prim2SF y) as [sy | sy | | sy my ey].
Qed.

(** A property of the start value and of every item that addition keeps
    is a property of the sum: this is all that the theorem below uses of
    the order in which [np.sum] adds the items. *)
Lemma np64_sum_closed (P : float -> Prop) (l : list float) (acc : float) :
  P acc -> (forall x y, P x -> P y -> P (x + y)) ->
  Forall P l -> P (fold_left PrimFloat.add l acc).
Proof.
  intros Hacc Hadd. revert acc Hacc.
  induction l as [| x l IH]; intros acc Hacc Hl; [exact Hacc |].
  inversion Hl; subst. cbn [fold_left]. apply IH; auto.
Qed.

Lemma zip_with_exact_forall {A B C : Type} (f : A -> B -> option C)
    (P : A -> Prop) (Q : B -> Prop) (R : C -> Prop) :
  (forall a b c, P a -> Q b -> f a b = Some c -> R c) ->
  forall l1 l2 l3, zip_with_exact f l1 l2 = Some l3 ->
  Forall P l1 -> Forall Q l2 -> Forall R l3.
Proof.
  intros Hf. induction l1 as [| a l1 IH]; intros [| b l2] l3 H H1 H2;
    try discriminate.
  - injection H as <-. constructor.
  - apply zip_with_exact_cons in H as (c & cs & Hc & Hcs & ->).
    inversion H1; inversion H2; subst. constructor; eauto.
Qed.

End ZeroFilter.

(** X17.  On float64 arrays: with a filter whose weights are all zero
    and a slice that holds finite numbers only (no inf, no nan),
    [conv_single_step] returns [float(b)]: the very float, unless the bias
    is a zero, when the result is a zero too. *)
Theorem conv_single_step_zero_filter (a_slice_prev W b : Grid float)
    (Z : float) :
  Forall (fun w => (w =? 0)%float = true) (flatten W) ->
  Forall (fun a => is_finite a = true) (flatten a_slice_prev) ->
  np64.conv_single_step a_slice_prev W b = Some Z ->
  exists bias,
    flatten b = [bias] /\
    (Z = bias \/ ((Z =? 0)%float = true /\ (bias =? 0)%float = true)).
Proof.
  intros Hw Ha. unfold np64.conv_single_step.
  intros (s & Hs & H)%bind_some.
  apply bind_some in H as (fb & Hfb & [= <-]).
  unfold np64.py_float in Hfb.
  destruct (flatten b) as [| bias [| ? ?]]; try discriminate.
  injection Hfb as <-. exists bias. split; [reflexivity |].
  apply f64_zero_add. unfold np64.sum.
  apply np64_sum_closed; [reflexivity | apply f64_add_zeros |].
  apply grid_zip_with_flatten in Hs.
  eapply zip_with_exact_forall; [| exact Hs | exact Ha | exact Hw].
  intros a w c Hfin Hzero [= <-]. now apply f64_mul_by_zero.
Qed.

Lemma conv_single_step_zero_filter_witness :
  exists bias,
    flatten [[[10%float]]] = [bias] /\
    (10%float = bias \/
     ((10 =? 0)%float = true /\ (bias =? 0)%float = true)).
Proof.
  apply (conv_single_step_zero_filter
           [[[1; 2]; [3; 4]]]%float [[[0; 0]; [0; 0]]]%float [[[10]]]%float
           10%float).
  - repeat constructor.
  - repeat constructor.
  - reflexivity.
Defined.

(** ** [pool_forward] *)

Lemma nth_error_seq_lt (start n i : nat) :
  nth_error (seq start n) i
  = if (i <? n)%nat then Some (start + i)%nat else None.
Proof.
  revert start i. induction n as [| n IH]; intros start [| i];
    cbn [nth_error seq]; try reflexivity.
  - change (0 <? S n)%nat with true. cbv iota. f_equal. lia.
  - rewrite IH.
    destruct (Nat.ltb_spec i n), (Nat.ltb_spec (S i) (S n)); try lia;
      [f_equal; lia | reflexivity].
Qed.

(** A loop over [range(n)] that fills one axis: the entry at [i] is what
    the body computes for [i]. *)
Lemma map_exact_range {B : Type} (body : nat -> option B) (n : nat) l :
  map_exact body (seq 0 n) = Some l ->
  forall i, nth_error l i = if (i <? n)%nat then body i else None.
Proof.
  intros H i. rewrite (map_exact_nth _ _ _ H), nth_error_seq_lt.
  destruct (i <? n)%nat; reflexivity.
Qed.

Lemma map_exact_raises {A B : Type} (f : A -> option B) (a : A) l :
  In a l -> f a = None -> map_exact f l = None.
Proof.
  intros Hin Ha. induction l as [| x l IH]; [destruct Hin |].
  cbn. destruct Hin as [-> | Hin].
  - now rewrite Ha.
  - rewrite (IH Hin). now destruct (f x).
Qed.

Lemma slice_bound_inside (k len : nat) :
  (k <= len)%nat -> np.slice_bound (Z.of_nat k) len = k.
Proof.
  intros H. unfold np.slice_bound.
  destruct (Z.of_nat k <? 0)%Z eqn:E; [apply Z.ltb_lt in E; lia |].
  rewrite Nat2Z.id. lia.
Qed.

Lemma slice_bound_outside (k len : nat) :
  (len <= k)%nat -> np.slice_bound (Z.of_nat k) len = len.
Proof.
  intros H. unfold np.slice_bound.
  destruct (Z.of_nat k <? 0)%Z eqn:E; [apply Z.ltb_lt in E; lia |].
  rewrite Nat2Z.id. lia.
Qed.

Lemma slice_range_inside (a n len : nat) :
  (a + n <= len)%nat ->
  np.slice_range (Z.of_nat a) (Z.of_nat (a + n)) len = seq a n.
Proof.
  intros H. unfold np.slice_range.
  rewrite !slice_bound_inside by lia. f_equal. lia.
Qed.

Lemma slice_range_outside (a b len : nat) :
  (len <= a)%nat -> (a <= b)%nat ->
  np.slice_range (Z.of_nat a) (Z.of_nat b) len = [].
Proof.
  intros Ha Hb. unfold np.slice_range.
  rewrite !slice_bound_outside by lia. now rewrite Nat.sub_diag.
Qed.

Lemma slice2_no_columns (a : Array4) (i : nat) (r0 r1 c0 c1 : Z) (c : nat) :
  np.slice_range c0 c1 (dim2 a) = [] -> np.slice2 a i r0 r1 c0 c1 c = [].
Proof.
  intros H. unfold np.slice2. rewrite H.
  induction (np.slice_range r0 r1 (dim1 a)); cbn; auto.
Qed.

Lemma slice2_no_rows (a : Array4) (i : nat) (r0 r1 c0 c1 : Z) (c : nat) :
  np.slice_range r0 r1 (dim1 a) = [] -> np.slice2 a i r0 r1 c0 c1 c = [].
Proof. intros H. unfold np.slice2. now rewrite H. Qed.


Lemma py_int_one_plus_quotient (a : Z) (p : positive) :
  (0 <= a)%Z ->
  py_int (1 + inject_Z a / inject_Z (Zpos p)) = (a / Zpos p + 1)%Z.
Proof.
  intros Ha. unfold py_int, Qdiv, Qinv, Qmult, Qplus, inject_Z.
  cbn [Qnum Qden]. rewrite !Pos.mul_1_l, !Z.mul_1_r, !Z.mul_1_l.
  rewrite Z.quot_div_nonneg by lia.
  replace (Zpos p + a)%Z with (a + 1 * Zpos p)%Z by lia.
  now rewrite Z.div_add by lia.
Qed.

Module PoolingFacts.

Import String.
Import Pooling.
Local Open Scope string_scope.

Lemma output_dim_inside (n F S : nat) :
  (0 < S)%nat -> (F <= n)%nat ->
  output_dim n (Z.of_nat F) (Z.of_nat S)
  = Some (Z.of_nat ((n - F) / S + 1)).
Proof.
  intros HS HF. unfold output_dim, Py.div.
  destruct (Qeq_bool (inject_Z (Z.of_nat S)) 0) eqn:E.
  - apply Qeq_bool_iff in E. unfold Qeq in E. cbn in E. lia.
  - cbn [bind]. f_equal.
    destruct (Z.of_nat S) as [| p | p] eqn:ES; try lia.
    rewrite py_int_one_plus_quotient by lia.
    rewrite <- ES, <- Nat2Z.inj_sub by lia.
    rewrite Nat2Z.inj_add, Nat2Z.inj_div. reflexivity.
Qed.

Lemma dimension_of_nat (n : nat) : dimension (Z.of_nat n) = Some n.
Proof.
  unfold dimension. destruct (Z.of_nat n <? 0)%Z eqn:E.
  - apply Z.ltb_lt in E. lia.
  - now rewrite Nat2Z.id.
Qed.

(** What a call that returns has computed: the hyperparameters, the output
    dimensions, the cache, and every item of the output. *)
Lemma pool_forward_returned (A_prev : Array4) (hparameters : Dict)
    (mode : string) (A : Output) cache :
  pool_forward A_prev hparameters mode = Some (A, cache) ->
  exists f stride n_H n_W,
    getitem hparameters "f" = Some f /\
    getitem hparameters "stride" = Some stride /\
    (d <- output_dim (dim1 A_prev) f stride ;; dimension d) = Some n_H /\
    (d <- output_dim (dim2 A_prev) f stride ;; dimension d) = Some n_W /\
    cache = (A_prev, hparameters) /\
    forall i h w c,
      if ((i <? dim0 A_prev) && (h <? n_H) && (w <? n_W)
          && (c <? dim3 A_prev))%nat
      then exists cell,
             output_item A i h w c = Some cell /\
             pool_cell A_prev f stride mode i h w c = Some cell
      else output_item A i h w c = None.
Proof.
  unfold pool_forward. cbv zeta.
  intros (f & Hf & H)%bind_some.
  apply bind_some in H as (stride & Hs & H).
  apply bind_some in H as (zH & HzH & H).
  apply bind_some in H as (zW & HzW & H).
  apply bind_some in H as (n_H & HnH & H).
  apply bind_some in H as (n_W & HnW & H).
  apply bind_some in H as (A0 & HA & [= <- <-]).
  exists f, stride, n_H, n_W.
  rewrite HzH, HzW. cbn [bind].
  repeat (split; [assumption || reflexivity |]).
  intros i h w c.
  assert (Hgoal :
    (output_item A0 i h w c
     = if ((i <? dim0 A_prev) && (h <? n_H) && (w <? n_W)
           && (c <? dim3 A_prev))%nat
       then pool_cell A_prev f stride mode i h w c else None)
    /\ (((i <? dim0 A_prev) && (h <? n_H) && (w <? n_W)
         && (c <? dim3 A_prev))%nat = true ->
        pool_cell A_prev f stride mode i h w c <> None)).
  2: { destruct Hgoal as [Heq Hne].
       destruct ((i <? dim0 A_prev) && (h <? n_H) && (w <? n_W)
                 && (c <? dim3 A_prev))%nat; [| exact Heq].
       destruct (pool_cell A_prev f stride mode i h w c) as [cell |];
         [eauto | now destruct Hne]. }
  unfold output_item.
  rewrite (map_exact_range _ _ _ HA).
  destruct (Nat.ltb_spec i (dim0 A_prev)) as [Hi |];
    [| split; [reflexivity | discriminate]].
  cbn [andb].
  destruct (map_exact _ (seq 0 n_H)) as [r1 |] eqn:H1.
  2: { rewrite (map_exact_raises _ i _
                  (proj2 (in_seq _ _ _) (conj (Nat.le_0_l _) Hi)) H1) in HA.
       discriminate. }
  cbn [bind]. rewrite (map_exact_range _ _ _ H1).
  destruct (Nat.ltb_spec h n_H) as [Hh |];
    [| split; [reflexivity | discriminate]].
  cbn [andb].
  destruct (map_exact _ (seq 0 n_W)) as [r2 |] eqn:H2.
  2: { rewrite (map_exact_raises _ h _
                  (proj2 (in_seq _ _ _) (conj (Nat.le_0_l _) Hh)) H2) in H1.
       discriminate. }
  cbn [bind]. rewrite (map_exact_range _ _ _ H2).
  destruct (Nat.ltb_spec w n_W) as [Hw |];
    [| split; [reflexivity | discriminate]].
  cbn [andb].
  destruct (map_exact _ (seq 0 (dim3 A_prev))) as [r3 |] eqn:H3.
  2: { rewrite (map_exact_raises _ w _
                  (proj2 (in_seq _ _ _) (conj (Nat.le_0_l _) Hw)) H3) in H2.
       discriminate. }
  cbn [bind]. rewrite (map_exact_range _ _ _ H3).
  destruct (Nat.ltb_spec c (dim3 A_prev)) as [Hc |];
    [| split; [reflexivity | discriminate]].
  split; [reflexivity |]. intros _ H4.
  pose proof (map_exact_raises
                (fun c => pool_cell A_prev f stride mode i h w c) c _
                (proj2 (in_seq _ _ _) (conj (Nat.le_0_l _) Hc)) H4) as HN.
  pose proof (eq_trans (eq_sym H3) HN). discriminate.
Qed.


Lemma pool_cell_window (A_prev : Array4) (F S : nat) (mode : string)
    (i h w c : nat) :
  pool_cell A_prev (Z.of_nat F) (Z.of_nat S) mode i h w c
  = let a_prev_slice :=
      np.slice2 A_prev i (Z.of_nat (S * w)) (Z.of_nat (S * w + F))
                (Z.of_nat (S * h)) (Z.of_nat (S * h + F)) c in
    if String.eqb mode "max" then v <- np.max a_prev_slice ;; Some (Num v)
    else if String.eqb mode "average" then Some (np.mean a_prev_slice)
    else Some (Num 0).
Proof.
  unfold pool_cell. cbv zeta.
  now rewrite <- !Nat2Z.inj_mul, <- !Nat2Z.inj_add.
Qed.

Section Hyperparameters.

Variables (A_prev : Array4) (hparameters : Dict) (F S : nat).

Hypothesis f_given : getitem hparameters "f" = Some (Z.of_nat F).
Hypothesis stride_given : getitem hparameters "stride" = Some (Z.of_nat S).
Hypothesis stride_positive : (0 < S)%nat.
Hypothesis f_fits_height : (F <= dim1 A_prev)%nat.
Hypothesis f_fits_width : (F <= dim2 A_prev)%nat.

Lemma pool_forward_items (mode : string) (A : Output) cache :
  pool_forward A_prev hparameters mode = Some (A, cache) ->
  cache = (A_prev, hparameters) /\
  forall i h w c,
    if ((i <? dim0 A_prev) && (h <? pooled_dim (dim1 A_prev) F S)
        && (w <? pooled_dim (dim2 A_prev) F S) && (c <? dim3 A_prev))%nat
    then exists cell,
           output_item A i h w c = Some cell /\
           pool_cell A_prev (Z.of_nat F) (Z.of_nat S) mode i h w c
           = Some cell
    else output_item A i h w c = None.
Proof.
  intros (f & stride & nH & nW & Hf & Hs & HnH & HnW & Hc & Hitems)
    %pool_forward_returned.
  rewrite f_given in Hf. rewrite stride_given in Hs.
  injection Hf as <-. injection Hs as <-.
  rewrite output_dim_inside in HnH, HnW by assumption.
  cbn [bind] in HnH, HnW. rewrite dimension_of_nat in HnH, HnW.
  injection HnH as <-. injection HnW as <-.
  split; [exact Hc | exact Hitems].
Qed.

Lemma in_range_iff (m nH nW nC i h w c : nat) :
  ((i <? m) && (h <? nH) && (w <? nW) && (c <? nC))%nat = true <->
  (i < m /\ h < nH /\ w < nW /\ c < nC)%nat.
Proof. rewrite !andb_true_iff, !Nat.ltb_lt. tauto. Qed.

(** X18.  The output of [pool_forward] has the documented shape: it has an
    item at [(i, h, w, c)] exactly for [i < m], [h < n_H], [w < n_W] and
    [c < n_C], where [n_H] and [n_W] are floor((n_prev - f) / stride) + 1;
    the cache is the pair of the two arguments. *)
Theorem pool_forward_shape (mode : string) (A : Output) cache :
  pool_forward A_prev hparameters mode = Some (A, cache) ->
  cache = (A_prev, hparameters) /\
  forall i h w c,
    output_item A i h w c <> None <->
    (i < dim0 A_prev /\ h < pooled_dim (dim1 A_prev) F S /\
     w < pooled_dim (dim2 A_prev) F S /\ c < dim3 A_prev)%nat.
Proof.
  intros [Hc Hitems]%pool_forward_items. split; [exact Hc |].
  intros i h w c. specialize (Hitems i h w c).
  rewrite <- in_range_iff.
  destruct (_ && _)%bool.
  - destruct Hitems as (cell & -> & _). split; [reflexivity | discriminate].
  - rewrite Hitems. split; [congruence | discriminate].
Qed.



Lemma pool_cell_max_raises (i h w c : nat) :
  (dim2 A_prev <= S * h)%nat \/ (dim1 A_prev <= S * w)%nat ->
  pool_cell A_prev (Z.of_nat F) (Z.of_nat S) "max" i h w c = None.
Proof.
  intros Hout. rewrite pool_cell_window. cbn.
  destruct Hout as [Hcols | Hrows].
  - rewrite slice2_no_columns; [reflexivity |].
    apply slice_range_outside; lia.
  - rewrite slice2_no_rows; [reflexivity |].
    apply slice_range_outside; lia.
Qed.

(** X20.  On an input that is not square enough, max pooling raises: when
    the last output row starts at or beyond the input width, or the last
    output column starts at or beyond the input height, a window is empty
    and [np.max] fails. *)
Theorem pool_forward_max_raises_off_square :
  (0 < dim0 A_prev)%nat -> (0 < dim3 A_prev)%nat ->
  (dim2 A_prev <= S * ((dim1 A_prev - F) / S))%nat \/
  (dim1 A_prev <= S * ((dim2 A_prev - F) / S))%nat ->
  pool_forward A_prev hparameters "max" = None.
Proof.
  intros Hm Hc Hoff. unfold pool_forward. cbv zeta.
  rewrite f_given, stride_given. cbn [bind].
  rewrite !output_dim_inside by assumption. cbn [bind].
  rewrite !dimension_of_nat. cbn [bind].
  match goal with
  | |- bind ?X _ = None => assert (HX : X = None); [| now rewrite HX]
  end.
  destruct Hoff as [Htall | Hwide].
  - apply map_exact_raises with (a := 0%nat); [apply in_seq; lia |].
    apply map_exact_raises with (a := ((dim1 A_prev - F) / S)%nat);
      [apply in_seq; lia |].
    apply map_exact_raises with (a := 0%nat); [apply in_seq; lia |].
    apply map_exact_raises with (a := 0%nat); [apply in_seq; lia |].
    apply pool_cell_max_raises. now left.
  - apply map_exact_raises with (a := 0%nat); [apply in_seq; lia |].
    apply map_exact_raises with (a := 0%nat); [apply in_seq; lia |].
    apply map_exact_raises with (a := ((dim2 A_prev - F) / S)%nat);
      [apply in_seq; lia |].
    apply map_exact_raises with (a := 0%nat); [apply in_seq; lia |].
    apply pool_cell_max_raises. now right.
Qed.




End Hyperparameters.

(** X22.  Max pooling with a 1 by 1 window and stride 1 returns the square
    input with its two spatial axes exchanged: the item at [(i, h, w, c)]
    of the output is the item at [(i, w, h, c)] of the input. *)
Theorem pool_forward_unit_window_swaps_axes (A_prev : Array4)
    (hparameters : Dict) (A : Output) cache (i h w c : nat) :
  getitem hparameters "f" = Some 1%Z ->
  getitem hparameters "stride" = Some 1%Z ->
  dim1 A_prev = dim2 A_prev ->
  pool_forward A_prev hparameters "max" = Some (A, cache) ->
  (i < dim0 A_prev)%nat -> (h < dim1 A_prev)%nat ->
  (w < dim2 A_prev)%nat -> (c < dim3 A_prev)%nat ->
  output_item A i h w c = Some (Num (item A_prev i w h c)).
Proof.
  intros Hf Hs Hsq Hrun Hi Hh Hw Hc.
  apply (pool_forward_items A_prev hparameters 1 1 Hf Hs) in Hrun
    as [_ Hitems]; try lia.
  specialize (Hitems i h w c).
  assert (Hdim : forall n, (0 < n)%nat -> pooled_dim n 1 1 = n).
  { intros n Hn. unfold pooled_dim. rewrite Nat.div_1_r. lia. }
  rewrite !Hdim in Hitems by lia.
  destruct (_ && _)%bool eqn:Hin.
  2: { apply not_true_iff_false in Hin. destruct Hin.
       apply in_range_iff. lia. }
  destruct Hitems as (cell & -> & Hpool). f_equal.
  rewrite pool_cell_window in Hpool. cbn -[np.slice2 Nat.mul] in Hpool.
  unfold np.slice2 in Hpool.
  rewrite !slice_range_inside in Hpool by lia.
  cbn in Hpool. injection Hpool as <-.
  now rewrite !Nat.add_0_r.
Qed.

(** X23.  With a mode other than "max" and "average", [pool_forward]
    stores nothing: every item of the output is 0. *)
Theorem pool_forward_unknown_mode_zeros (A_prev : Array4)
    (hparameters : Dict) (mode : string) (A : Output) cache
    (i h w c : nat) (cell : Cell) :
  mode <> "max" -> mode <> "average" ->
  pool_forward A_prev hparameters mode = Some (A, cache) ->
  output_item A i h w c = Some cell ->
  cell = Num 0.
Proof.
  intros Hmax Havg
    (f & stride & nH & nW & _ & _ & _ & _ & _ & Hitems)%pool_forward_returned
    Hcell.
  specialize (Hitems i h w c).
  destruct (_ && _)%bool; [| congruence].
  destruct Hitems as (cell' & Hcell' & Hpool).
  rewrite Hcell in Hcell'. injection Hcell' as <-.
  unfold pool_cell in Hpool. cbv zeta in Hpool.
  apply String.eqb_neq in Hmax, Havg. rewrite Hmax, Havg in Hpool.
  now injection Hpool as <-.
Qed.

Lemma pool_forward_shape_witness :
  (example_input, example_hparameters) = (example_input, example_hparameters)
  /\ forall i h w c,
       output_item [[[[Num (10 # 4)]]]; [[[Num (26 # 4)]]]] i h w c <> None
       <->
       (i < 2 /\ h < pooled_dim 2 2 1 /\ w < pooled_dim 2 2 1 /\ c < 1)%nat.
Proof.
  apply (pool_forward_shape example_input example_hparameters 2 1
           eq_refl eq_refl (le_n 1) (le_n 2) (le_n 2) "average"
           [[[[Num (10 # 4)]]]; [[[Num (26 # 4)]]]]
           (example_input, example_hparameters)).
  reflexivity.
Defined.


Lemma pool_forward_max_raises_off_square_witness :
  pool_forward example_tall example_unit_window "max" = None.
Proof.
  apply (pool_forward_max_raises_off_square example_tall
           example_unit_window 1 1 eq_refl eq_refl (le_n 1)).
  - cbn. lia.
  - cbn. lia.
  - cbn. lia.
  - cbn. lia.
  - left. cbn. lia.
Defined.


Lemma pool_forward_unit_window_swaps_axes_witness :
  output_item [[[[Num 1]; [Num 3]]; [[Num 2]; [Num 4]]];
               [[[Num 5]; [Num 7]]; [[Num 6]; [Num 8]]]] 0 0 1 0
  = Some (Num (item example_input 0 1 0 0)).
Proof.
  apply (pool_forward_unit_window_swaps_axes example_input
           example_unit_window
           [[[[Num 1]; [Num 3]]; [[Num 2]; [Num 4]]];
            [[[Num 5]; [Num 7]]; [[Num 6]; [Num 8]]]]
           (example_input, example_unit_window) 0 0 1 0);
    try reflexivity; cbn; lia.
Defined.

Lemma pool_forward_unknown_mode_zeros_witness : Num 0 = Num 0.
Proof.
  apply (pool_forward_unknown_mode_zeros example_tall example_unit_window
           "sum" [[[[Num 0]]; [[Num 0]]; [[Num 0]]]]
           (example_tall, example_unit_window) 0 2 0 0 (Num 0)).
  - discriminate.
  - discriminate.
  - reflexivity.
  - reflexivity.
Defined.

End PoolingFacts.

(** ** [initialize_parameters_he] *)

Module HeInitFacts.

Import String.
Import HeInit.
Local Open Scope string_scope.

Lemma str_injective (a b : nat) : str a = str b -> a = b.
Proof.
  unfold str. intros H.
  apply (f_equal DecimalString.NilEmpty.uint_of_string) in H.
  rewrite !DecimalString.NilEmpty.usu in H. injection H as H.
  apply (f_equal Nat.of_uint) in H.
  now rewrite !DecimalNat.Unsigned.of_to in H.
Qed.

Lemma getitem_setitem_same (d : Parameters) key value :
  getitem (setitem d key value) key = Some value.
Proof.
  induction d as [| [k v] d IH]; cbn.
  - now rewrite String.eqb_refl.
  - destruct (String.eqb k key) eqn:E; cbn; rewrite E; auto.
Qed.

Lemma getitem_setitem_other (d : Parameters) key key' value :
  key <> key' -> getitem (setitem d key value) key' = getitem d key'.
Proof.
  intros Hne. induction d as [| [k v] d IH]; cbn.
  - apply String.eqb_neq in Hne. now rewrite Hne.
  - destruct (String.eqb k key) eqn:E; cbn.
    + apply String.eqb_eq in E. subst k.
      apply String.eqb_neq in Hne. now rewrite Hne.
    + destruct (String.eqb k key'); auto.
Qed.

Lemma length_setitem_new (d : Parameters) key value :
  getitem d key = None ->
  Datatypes.length (setitem d key value) = (Datatypes.length d + 1)%nat.
Proof.
  induction d as [| [k v] d IH]; cbn; [reflexivity |].
  destruct (String.eqb k key); [discriminate |].
  intros H. cbn. now rewrite IH.
Qed.


Section Generator.

Variable rng : Type.
Variable seed : Z -> rng.
Variable randn : nat -> nat -> rng -> Matrix * rng.
Variable sqrt : Q -> Q.
Variable layers_dims : list nat.

Local Abbreviation rounds := (HeInit.rounds rng seed randn sqrt layers_dims).
Local Abbreviation filled := (HeInit.filled rng randn sqrt layers_dims).

Lemma rounds_succ (k : nat) :
  rounds (S k) = he_layer rng randn sqrt layers_dims (S k) (rounds k).
Proof. unfold HeInit.rounds. now rewrite seq_S, fold_left_app. Qed.

Lemma he_layer_returned (l : nat) state parameters' g' :
  he_layer rng randn sqrt layers_dims l state = (Some parameters', g') ->
  exists parameters g n_l n_prev q,
    state = (Some parameters, g) /\
    nth_error layers_dims l = Some n_l /\
    nth_error layers_dims (l - 1) = Some n_prev /\
    Py.div 2 (inject_Z (Z.of_nat n_prev)) = Some q /\
    parameters'
    = setitem
        (setitem parameters ("W" ++ str l)
           (map (map (fun x => x * sqrt q)) (fst (randn n_l n_prev g))))
        ("b" ++ str l) (zeros n_l 1).
Proof.
  unfold he_layer. destruct state as [[parameters |] g]; [| discriminate].
  destruct (nth_error layers_dims l) as [n_l |]; [| discriminate].
  destruct (nth_error layers_dims (l - 1)) as [n_prev |]; [| discriminate].
  destruct (randn n_l n_prev g) as [G g1] eqn:HG.
  destruct (Py.div 2 (inject_Z (Z.of_nat n_prev))) as [q |] eqn:Hq;
    [| discriminate].
  intros [= <- <-]. exists parameters, g, n_l, n_prev, q.
  rewrite HG. cbn [fst]. auto 6.
Qed.

Lemma rounds_filled (k : nat) : forall parameters g,
  rounds k = (Some parameters, g) -> filled k parameters.
Proof.
  induction k as [| k IH]; intros parameters' g'.
  - intros [= <- _]. split; [reflexivity |]. split.
    + intros key H. now destruct H.
    + intros l ? ? Hl. lia.
  - rewrite rounds_succ.
    intros (parameters & g & n_l & n_prev & q & Hstate & Hl & Hprev & Hq & ->)
      %he_layer_returned.
    destruct (IH _ _ Hstate) as (Hlen & Hkeys & Hvals).
    assert (Hfresh : forall key,
              key = "W" ++ str (S k) \/ key = "b" ++ str (S k) ->
              getitem parameters key = None).
    { intros key Hkey.
      destruct (getitem parameters key) eqn:E; [| reflexivity].
      destruct (Hkeys key) as (l & Hlk & Hl'); [congruence |].
      exfalso. destruct Hkey as [-> | ->], Hl' as [Hl' | Hl'];
        try discriminate Hl'; injection Hl' as Hl'%str_injective; lia. }
    assert (HWb : "W" ++ str (S k) <> "b" ++ str (S k)) by discriminate.
    split; [| split].
    + rewrite length_setitem_new.
      * rewrite length_setitem_new by (apply Hfresh; now left). lia.
      * rewrite getitem_setitem_other by exact HWb. apply Hfresh. now right.
    + intros key Hkey.
      destruct (String.eqb_spec ("b" ++ str (S k)) key) as [<- | Hb];
        [exists (S k); split; [lia | now right] |].
      rewrite getitem_setitem_other in Hkey by exact Hb.
      destruct (String.eqb_spec ("W" ++ str (S k)) key) as [<- | HW];
        [exists (S k); split; [lia | now left] |].
      rewrite getitem_setitem_other in Hkey by exact HW.
      destruct (Hkeys key Hkey) as (l & Hlk & Hl').
      exists l. split; [lia | auto].
    + intros l m_l m_prev Hlk Hml Hmprev.
      destruct (Nat.eq_dec l (S k)) as [-> | Hne].
      * rewrite Hl in Hml. rewrite Hprev in Hmprev.
        injection Hml as <-. injection Hmprev as <-.
        split; [apply getitem_setitem_same |].
        exists g, q. split; [exact Hq |].
        rewrite getitem_setitem_other by (intros H; now apply HWb).
        apply getitem_setitem_same.
      * assert (Hstr : str (S k) <> str l)
          by (intros H%str_injective; lia).
        rewrite !getitem_setitem_other
          by (try discriminate; intros [= H]; now apply Hstr).
        apply Hvals; [lia | assumption | assumption].
Qed.




Lemma initialize_parameters_he_rounds (g : rng) :
  initialize_parameters_he rng seed randn sqrt layers_dims g
  = rounds (Datatypes.length layers_dims - 1).
Proof. reflexivity. Qed.

(** X25.  What a successful call returns: a dict of [2 * L] entries for
    the [L = len(layers_dims) - 1] layers, in which ["b" + str(l)] is a
    column of [layers_dims[l]] zeros and ["W" + str(l)] is a
    [randn(layers_dims[l], layers_dims[l-1])] draw multiplied by
    [sqrt(2 / layers_dims[l-1])], for every layer [l >= 1]. *)
Theorem initialize_parameters_he_fills (g : rng) (parameters : Parameters) :
  fst (initialize_parameters_he rng seed randn sqrt layers_dims g)
  = Some parameters ->
  Datatypes.length parameters
  = (2 * (Datatypes.length layers_dims - 1))%nat /\
  forall l n_l n_prev,
    (1 <= l)%nat ->
    nth_error layers_dims l = Some n_l ->
    nth_error layers_dims (l - 1) = Some n_prev ->
    getitem parameters ("b" ++ str l) = Some (zeros n_l 1) /\
    exists g' q,
      Py.div 2 (inject_Z (Z.of_nat n_prev)) = Some q /\
      getitem parameters ("W" ++ str l)
      = Some (map (map (fun x => x * sqrt q)) (fst (randn n_l n_prev g'))).
Proof.
  rewrite initialize_parameters_he_rounds.
  destruct (rounds (Datatypes.length layers_dims - 1)) as [r g1] eqn:Hr.
  cbn [fst]. intros ->.
  apply rounds_filled in Hr as (Hlen & _ & Hvals).
  split; [exact Hlen |].
  intros l n_l n_prev Hl Hnl Hprev. apply Hvals; try assumption.
  assert (l < Datatypes.length layers_dims)%nat
    by (apply nth_error_Some; congruence).
  lia.
Qed.


End Generator.

Lemma initialize_parameters_he_fills_witness :
  Datatypes.length
    [("W1", [[6 # 2; 6 # 2]; [6 # 2; 6 # 2]]); ("b1", [[0]; [0]])]
  = (2 * (Datatypes.length [2; 2]%nat - 1))%nat /\
  forall l n_l n_prev,
    (1 <= l)%nat ->
    nth_error [2; 2]%nat l = Some n_l ->
    nth_error [2; 2]%nat (l - 1) = Some n_prev ->
    getitem [("W1", [[6 # 2; 6 # 2]; [6 # 2; 6 # 2]]); ("b1", [[0]; [0]])]
            ("b" ++ str l)
    = Some (zeros n_l 1) /\
    exists g' q,
      Py.div 2 (inject_Z (Z.of_nat n_prev)) = Some q /\
      getitem [("W1", [[6 # 2; 6 # 2]; [6 # 2; 6 # 2]]); ("b1", [[0]; [0]])]
              ("W" ++ str l)
      = Some (map (map (fun x => x * example_sqrt q))
                  (fst (example_randn n_l n_prev g'))).
Proof.
  apply (initialize_parameters_he_fills nat example_seed example_randn
           example_sqrt [2; 2]%nat 0%nat).
  reflexivity.
Defined.

End HeInitFacts.
